(** * monty: the symbol-listing generator [magic.py] and the import
    resolution core it feeds.

    The first part embeds [magic.py], the script that prints the static
    symbol listing (builtins, special-method names, foreign-type aliases).
    The script writes to standard output, so the embedding threads the
    output text through every [print]; Python iterates a [set] in an
    unspecified order, so every loop takes the order of iteration as an
    argument and the theorems quantify over all orders of the in-source
    tables.

    The second part models the module and import resolution core
    (SourceLocator, ModuleRegistry, ImportResolver, CompiledProgram), of
    which the repository holds the test only: a registry of module
    objects as a finite map, the file system as a finite map from paths to
    texts, and the resolver as a function that threads the program through
    its calls and returns a module or raises an error. *)

From Stdlib Require Import Ascii.
From stdpp Require Import gmap strings list fin_maps.

(** ** The generator *)

Module Magic.

(** [BUILTINS = {float, int, str, ...}]: a set of Python objects.  The
    generator only ever reads [__name__] of each, so an object is
    represented by that attribute. *)
Definition BUILTINS : list string :=
  ["float"; "int"; "str"; "object"; "bool"; "type"; "dict"; "set"; "list";
   "tuple"; "isinstance"; "id"].

Definition DUNDERS : list string :=
  ["add"; "sub"; "pow"; "mul"; "eq"; "ne"; "and"; "or"; "lshift"; "rshift";
   "div"; "getattr"; "getattribute"; "getitem"].

Definition CTYPES : list string :=
  ["char"; "byte"; "double"; "longdouble"; "float"; "int"; "int8"; "int32";
   "int64"; "long"; "longlong"; "size_t"; "ssize_t"; "ubyte"; "uint";
   "uint8"; "uint16"; "uint32"; "uint64"; "ulong"; "ulonglong"; "ushort";
   "void"; "wchar"; "bool"].

(** The line feed that [print] appends, and that the header literal also
    carries at its end. *)
Definition LF : Ascii.ascii := Ascii.ascii_of_nat 10.
Definition nl : string := String LF "".

(** Standard output is the text written so far. *)
Definition stdout := string.

(** [print(s)]: write [s] and a line feed. *)
Definition print (s : string) (out : stdout) : stdout := out +:+ s +:+ nl.

(** [for x in table: body]: the body runs once per element, in the order
    [order] in which the set happens to be iterated. *)
Definition for_each {A} (order : list A) (body : A → stdout → stdout)
    (out : stdout) : stdout :=
  fold_left (λ o x, body x o) order out.

Definition header : string :=
  "# DO NOT EDIT THIS FILE: automatically generated from 'magic.py' in the repository root.".

Definition ignore : string := "  # type: ignore".

(** Body of [for builtin in BUILTINS]. *)
Definition emit_builtin (builtin : string) (out : stdout) : stdout :=
  print builtin out.

(** Body of [for dunder in DUNDERS]. *)
Definition emit_dunder (dunder : string) (out : stdout) : stdout :=
  let out := print ("__" +:+ dunder +:+ "__" +:+ ignore) out in
  if decide (dunder ≠ "eq")
  then print ("__r" +:+ dunder +:+ "__" +:+ ignore) out
  else out.

(** Body of [for ctype in CTYPES]; the pointer line has a single blank
    before its comment. *)
Definition emit_ctype (ctype : string) (out : stdout) : stdout :=
  let out := print ("c_" +:+ ctype +:+ ignore) out in
  print ("c_" +:+ ctype +:+ "_p # type: ignore") out.

Definition value_line : string := "__value" +:+ ignore.

(** The whole script, for given iteration orders of the three tables. *)
Definition main (builtins dunders ctypes : list string) : stdout :=
  let out := print (header +:+ nl) "" in
  let out := for_each builtins emit_builtin out in
  let out := for_each dunders emit_dunder out in
  let out := for_each ctypes emit_ctype out in
  print value_line out.

(** A run of the script iterates each table in some order of its
    elements. *)
Definition run (builtins dunders ctypes : list string) : Prop :=
  builtins ≡ₚ BUILTINS ∧ dunders ≡ₚ DUNDERS ∧ ctypes ≡ₚ CTYPES.

(** *** Reading the listing back *)

(** The lines of a text: maximal runs without a line feed, each ended by
    one (the last one possibly not). *)
Fixpoint lines (out : string) : list string :=
  match out with
  | EmptyString => []
  | String c rest =>
      if Ascii.eqb c LF then "" :: lines rest
      else match lines rest with
           | [] => [String c ""]
           | l :: ls => String c l :: ls
           end
  end.

Definition ends_name (c : Ascii.ascii) : bool :=
  Ascii.eqb c " "%char || Ascii.eqb c "#"%char.

(** The identifier a line of the listing carries: the text in front of
    the blank that starts the [# type: ignore] comment. *)
Fixpoint line_name (l : string) : string :=
  match l with
  | EmptyString => ""
  | String c rest => if ends_name c then "" else String c (line_name rest)
  end.

(** The identifiers of a listing; the header and the empty line carry
    none. *)
Definition names (out : stdout) : list string :=
  filter (λ x, x ≠ "") (line_name <$> lines out).

(** The identifiers each loop contributes. *)
Definition builtin_names (builtins : list string) : list string :=
  names (for_each builtins emit_builtin "").
Definition dunder_names (dunders : list string) : list string :=
  names (for_each dunders emit_dunder "").
Definition ctype_names (ctypes : list string) : list string :=
  names (for_each ctypes emit_ctype "").

(** *** What the loops print, as data *)

(** The text that printing the strings [ps] one after the other adds. *)
Definition text (ps : list string) : string :=
  foldr (λ p rest, p +:+ nl +:+ rest) "" ps.

(** The arguments of the [print] calls of one pass through each loop
    body. *)
Definition dunder_lines (dunder : string) : list string :=
  ("__" +:+ dunder +:+ "__" +:+ ignore) ::
  (if decide (dunder ≠ "eq") then ["__r" +:+ dunder +:+ "__" +:+ ignore]
   else []).

Definition ctype_lines (ctype : string) : list string :=
  ["c_" +:+ ctype +:+ ignore; "c_" +:+ ctype +:+ "_p # type: ignore"].

(** ... and the identifiers these lines carry. *)
Definition dunder_idents (dunder : string) : list string :=
  ("__" +:+ dunder +:+ "__") ::
  (if decide (dunder ≠ "eq") then ["__r" +:+ dunder +:+ "__"] else []).

Definition ctype_idents (ctype : string) : list string :=
  ["c_" +:+ ctype; "c_" +:+ ctype +:+ "_p"].

(** All characters of a string satisfy [P]. *)
Fixpoint all_chars (P : Ascii.ascii → bool) (s : string) : bool :=
  match s with
  | EmptyString => true
  | String c rest => P c && all_chars P rest
  end.

(** A string without a line feed is printed as exactly one line. *)
Definition one_line (s : string) : bool :=
  all_chars (λ c, negb (Ascii.eqb c LF)) s.

(** A table entry that a line carries unchanged as its identifier: no
    line feed, no blank, no hash. *)
Definition plain (s : string) : bool :=
  all_chars (λ c, negb (Ascii.eqb c LF) && negb (ends_name c)) s.

(** [ends_with suffix s]: the last characters of [s] are [suffix]. *)
Definition ends_with (suffix s : string) : bool :=
  String.prefix (String.rev suffix) (String.rev s).

(** Modelled from the spec: the classification of an identifier by
    membership in the symbol table (the consumer of the listing is not
    part of the sources).  [Ordinary] is the category of the names that
    none of the three tables emits. *)
Inductive category := Builtin | SpecialMethod | ForeignTypeAlias | Ordinary.

Definition in_category (builtins dunders ctypes : list string)
    (c : category) (x : string) : Prop :=
  match c with
  | Builtin => x ∈ builtin_names builtins
  | SpecialMethod => x ∈ dunder_names dunders
  | ForeignTypeAlias => x ∈ ctype_names ctypes
  | Ordinary =>
      (x ∉ builtin_names builtins) ∧ (x ∉ dunder_names dunders)
      ∧ (x ∉ ctype_names ctypes)
  end.

End Magic.

(** ** The import resolution core *)

(** The resolver itself is not among the sources: only its test
    ([tests/test_import.py]) is.  The definitions of this module follow
    the specification of the resolution core (data model, SourceLocator,
    ModuleRegistry, ImportResolver, CompiledProgram). *)

Module Monty.

(** Modelled from the spec: [ImportDeclaration] is missing from the
    sources.  An immutable value: the dotted module name as its sequence of
    identifier segments, an optional alias and an optional set of imported
    symbol names; equality is that of the three components. *)
Record ImportDeclaration := mkImport {
  decl_module : list string;
  decl_alias : option string;
  decl_symbols : option (gset string)
}.

#[global] Instance ImportDeclaration_eq_dec : EqDecision ImportDeclaration.
Proof. solve_decision. Defined.

#[global] Instance ImportDeclaration_countable : Countable ImportDeclaration.
Proof.
  refine (inj_countable'
    (λ d, (decl_module d, decl_alias d, decl_symbols d))
    (λ t, mkImport t.1.1 t.1.2 t.2) _).
  by intros [].
Defined.

(** Modelled from the spec: the canonical name of a declaration, the key
    of the registry, is its dotted name. *)
Definition canonical_name (d : ImportDeclaration) : string :=
  String.concat "." (decl_module d).

(** Modelled from the spec: the [Parser] is an external collaborator; it
    turns the text of one module into an AST ([None]: it raises
    [ParseError]) that exposes the top-level import statements, as a
    set. *)
Class Parser := {
  Ast : Type;
  parse : string → option Ast;
  top_level_imports : Ast → gset ImportDeclaration
}.

(** Modelled from the spec: the states of a module name.  [Unregistered]
    is the absence of the name from the registry. *)
Inductive ModuleState := Pending | Resolved | Failed.

#[global] Instance ModuleState_eq_dec : EqDecision ModuleState.
Proof. solve_decision. Defined.

(** Modelled from the spec: [Module] is missing from the sources.
    [mod_id] is the identity of the Python object ([is] compares it);
    [path] and [builder] are null until resolution succeeds. *)
Record Module `{Parser} := mkModule {
  mod_id : nat;
  name : string;
  path : option string;
  builder : option Ast;
  imports : gset ImportDeclaration;
  state : ModuleState
}.

(** Modelled from the spec: [CompiledProgram] is missing from the
    sources.  It owns the registry [modules] and the search
    configuration; [next_id] numbers the [Module] objects as they are
    created and [parse_log] is the parse-count probe of the test double:
    the names whose text was handed to the parser, latest first. *)
Record CompiledProgram `{Parser} := mkProgram {
  modules : gmap string Module;
  searchRoots : list string;
  fileExtension : string;
  next_id : nat;
  parse_log : list string
}.

(** Modelled from the spec: the error taxonomy. *)
Inductive ImportError :=
  | ModuleNotFoundError (module : string) (roots : list string)
  | CircularImportError (cycle : list string)
  | ParseError (module : string).

(** The result of a resolution: a value or an error, with the program as
    it has become, or [OutOfFuel] when the bound on the depth of the
    recursion is reached. *)
Inductive outcome `{Parser} (A : Type) :=
  | Return (a : A) (p : CompiledProgram)
  | Raise (e : ImportError) (p : CompiledProgram)
  | OutOfFuel.
#[global] Arguments Return {_ _} _ _.
#[global] Arguments Raise {_ _} _ _.
#[global] Arguments OutOfFuel {_ _}.

Section resolver.

Context `{Parser}.

(** The file system: the text of every file, by path. *)
Variable fs : gmap string string.

(** *** SourceLocator *)

(** Modelled from the spec: [<root>/<segments joined by the path
    separator>.ext], the single-file module. *)
Definition module_file (root ext : string) (segments : list string) : string :=
  root +:+ "/" +:+ String.concat "/" segments +:+ "." +:+ ext.

(** Modelled from the spec: [<root>/<segments...>/__init__.ext], the
    package. *)
Definition package_init (root ext : string) (segments : list string) : string :=
  root +:+ "/" +:+ String.concat "/" segments +:+ "/__init__." +:+ ext.

Definition exists_file (file : string) : bool :=
  bool_decide (is_Some (fs !! file)).

(** Modelled from the spec: the probe of the roots in order; in each root
    the single-file module is looked for before the package; the first
    match wins.  File contents are not read. *)
Fixpoint probe (ext : string) (moduleName : list string)
    (searchRoots : list string) : option string :=
  match searchRoots with
  | [] => None
  | root :: rest =>
      if exists_file (module_file root ext moduleName)
      then Some (module_file root ext moduleName)
      else if exists_file (package_init root ext moduleName)
      then Some (package_init root ext moduleName)
      else probe ext moduleName rest
  end.

(** Modelled from the spec: [locate(moduleName, searchRoots)], which
    fails with [ModuleNotFoundError] naming the dotted path and the roots
    tried.  Paths are taken as they are built: the canonicalization of
    symbolic links is outside the model. *)
Definition locate (ext : string) (moduleName : list string)
    (searchRoots : list string) : ImportError + string :=
  match probe ext moduleName searchRoots with
  | Some file => inr file
  | None =>
      inl (ModuleNotFoundError (String.concat "." moduleName) searchRoots)
  end.

(** Root [r] holds neither form of the module. *)
Definition no_artifact (ext : string) (moduleName : list string) (r : string)
    : Prop :=
  fs !! module_file r ext moduleName = None
  ∧ fs !! package_init r ext moduleName = None.

(** [file] is what root [r] offers for the module: the single-file module
    if it exists, else the package. *)
Definition offers (ext : string) (moduleName : list string) (r file : string)
    : Prop :=
  (file = module_file r ext moduleName ∧ is_Some (fs !! file))
  ∨ (fs !! module_file r ext moduleName = None
     ∧ file = package_init r ext moduleName ∧ is_Some (fs !! file)).

(** *** ModuleRegistry *)

Definition set_modules (f : gmap string Module → gmap string Module)
    (p : CompiledProgram) : CompiledProgram :=
  {| modules := f (modules p); searchRoots := searchRoots p;
     fileExtension := fileExtension p; next_id := next_id p;
     parse_log := parse_log p |}.

(** Modelled from the spec: [getOrCreate(name) -> (Module,
    alreadyExisted)].  A created module is a new object, registered as
    [Pending] with nothing populated. *)
Definition getOrCreate (n : string) (p : CompiledProgram)
    : Module * bool * CompiledProgram :=
  match modules p !! n with
  | Some m => (m, true, p)
  | None =>
      let m := {| mod_id := next_id p; name := n; path := None;
                  builder := None; imports := ∅; state := Pending |} in
      (m, false,
       {| modules := <[n := m]> (modules p); searchRoots := searchRoots p;
          fileExtension := fileExtension p; next_id := S (next_id p);
          parse_log := parse_log p |})
  end.

Definition set_state (s : ModuleState) (m : Module) : Module :=
  {| mod_id := mod_id m; name := name m; path := path m;
     builder := builder m; imports := imports m; state := s |}.

(** Modelled from the spec: the module registered as [n] moves to state
    [s]; the registry has no removal, so a failure is recorded as
    [Failed], the marker that lets a later lookup retry. *)
Definition mark (n : string) (s : ModuleState) (p : CompiledProgram)
    : CompiledProgram :=
  set_modules (alter (set_state s) n) p.

(** Modelled from the spec: step 4 of [importModule], populate [path],
    [builder] and [imports]; the module is then resolved. *)
Definition populate (m : Module) (file : string) (ast : Ast) : Module :=
  {| mod_id := mod_id m; name := name m; path := Some file;
     builder := Some ast; imports := top_level_imports ast;
     state := Resolved |}.

Definition log_parse (n : string) (p : CompiledProgram) : CompiledProgram :=
  {| modules := modules p; searchRoots := searchRoots p;
     fileExtension := fileExtension p; next_id := next_id p;
     parse_log := n :: parse_log p |}.

(** The configuration option [searchRoots] is replaced. *)
Definition set_searchRoots (roots : list string) (p : CompiledProgram)
    : CompiledProgram :=
  {| modules := modules p; searchRoots := roots;
     fileExtension := fileExtension p; next_id := next_id p;
     parse_log := parse_log p |}.

(** *** ImportResolver *)

(** The names in progress above [n] on the call chain, innermost
    first. *)
Fixpoint upto (n : string) (stack : list string) : list string :=
  match stack with
  | [] => []
  | k :: rest => if decide (k = n) then [] else k :: upto n rest
  end.

(** Modelled from the spec: the cycle reported by [CircularImportError],
    the names from the repeated name back to itself. *)
Definition cycle_of (n : string) (stack : list string) : list string :=
  n :: reverse (upto n stack) ++ [n].

(** Modelled from the spec: the resolver "resolves each" import of a
    parsed module "and recurses"; the imports are resolved one after the
    other, in the order in which the set is iterated, and the first
    failure ends the walk. *)
Fixpoint resolve_each
    (rec : ImportDeclaration → CompiledProgram → outcome Module)
    (decls : list ImportDeclaration) (p : CompiledProgram) : outcome unit :=
  match decls with
  | [] => Return () p
  | d :: rest =>
      match rec d p with
      | Return _ p' => resolve_each rec rest p'
      | Raise e p' => Raise e p'
      | OutOfFuel => OutOfFuel
      end
  end.

(** Modelled from the spec: steps 3 to 6 of [importModule] for a name
    that is not resolved yet.  The module is [Pending] while its artifact
    is located, read, parsed and its own imports are resolved by [rec]
    (the re-entry of step 5 is this recursion; the laziness of the spec
    is that of [resolveEntry], which resolves nothing); it ends
    [Resolved] and populated, or [Failed]. *)
Definition load (rec : ImportDeclaration → CompiledProgram → outcome Module)
    (decl : ImportDeclaration) (m : Module) (p : CompiledProgram)
    : outcome Module :=
  let n := canonical_name decl in
  let p := mark n Pending p in
  match locate (fileExtension p) (decl_module decl) (searchRoots p) with
  | inl e => Raise e (mark n Failed p)
  | inr file =>
      match fs !! file with
      | None =>
          Raise (ModuleNotFoundError n (searchRoots p)) (mark n Failed p)
      | Some source =>
          let p := log_parse n p in
          match parse source with
          | None => Raise (ParseError n) (mark n Failed p)
          | Some ast =>
              match resolve_each rec (elements (top_level_imports ast)) p with
              | Return _ p' =>
                  let m' := populate m file ast in
                  Return m' (set_modules (insert n m') p')
              | Raise e p' => Raise e (mark n Failed p')
              | OutOfFuel => OutOfFuel
              end
          end
      end
  end.

(** Modelled from the spec: what a call does with the registry entry it
    gets, by the state machine of a module name.  An entry that existed
    and is resolved is returned; one that is in progress is a re-entry;
    a new one, or a failed one, starts a resolution. *)
Inductive step := Memoised | Reentered | Start.

Definition next_step (alreadyExisted : bool) (s : ModuleState) : step :=
  match alreadyExisted, s with
  | true, Resolved => Memoised
  | true, Pending => Reentered
  | _, _ => Start
  end.

(** Modelled from the spec: [importModule] with the chain of names in
    progress carried along the calls ([stack], innermost first).  A
    resolved module is returned as it is; a name in progress is a cycle;
    otherwise the module is loaded, its imports being resolved with the
    name added to the chain.  [fuel] bounds the depth of the chain. *)
Fixpoint resolve (fuel : nat) (stack : list string)
    (decl : ImportDeclaration) (p : CompiledProgram) : outcome Module :=
  match fuel with
  | 0 => OutOfFuel
  | S fuel' =>
      let n := canonical_name decl in
      let '(m, alreadyExisted, p1) := getOrCreate n p in
      match next_step alreadyExisted (state m) with
      | Memoised => Return m p1
      | Reentered => Raise (CircularImportError (cycle_of n stack)) p1
      | Start => load (resolve fuel' (n :: stack)) decl m p1
      end
  end.

(** Modelled from the spec: [importModule(decl, program, cwd)], and
    [CompiledProgram.import_module] which forwards to it: a resolution
    that starts with nothing in progress.  The spec gives [cwd] no
    role. *)
Definition importModule (fuel : nat) (decl : ImportDeclaration)
    (program : CompiledProgram) : outcome Module :=
  resolve fuel [] decl program.

(** *** CompiledProgram *)

(** Modelled from the spec: [resolveEntry(sourceText)], that is
    [compile]: the entry module is parsed and registered, resolved, as
    ["__main__"] with a synthetic path; none of its imports is
    resolved. *)
Definition resolveEntry (roots : list string) (ext : string)
    (sourceText : string) : option CompiledProgram :=
  ast ← parse sourceText;
  Some {| modules := {["__main__" :=
            {| mod_id := 0; name := "__main__"; path := Some "<string>";
               builder := Some ast; imports := top_level_imports ast;
               state := Resolved |}]};
          searchRoots := roots; fileExtension := ext; next_id := 1;
          parse_log := ["__main__"] |}.

(** *** The test [tests/test_import.py] *)

(** [str(decl)]: the test compares it with the dotted name. *)
Definition str (d : ImportDeclaration) : string := canonical_name d.

(** [set.pop()]: an arbitrary element is removed from the set and
    returned; on the empty set it raises [KeyError] ([None]). *)
Definition pop (s : gset ImportDeclaration)
    : option (ImportDeclaration * gset ImportDeclaration) :=
  match elements s with
  | [] => None
  | d :: _ => Some (d, s ∖ {[ d ]})
  end.

Definition set_imports (s : gset ImportDeclaration) (m : Module) : Module :=
  {| mod_id := mod_id m; name := name m; path := path m;
     builder := builder m; imports := s; state := state m |}.

(** How a run of the test ends: all assertions passed, the assertion of
    some line of the file failed, or an exception went uncaught. *)
Inductive test_outcome :=
  | Passed (code : CompiledProgram)
  | AssertionFailed (line : nat)
  | KeyError
  | Uncaught (e : ImportError)
  | Unfinished.

(** [test_parse_import_module_path], statement by statement, over
    [compile] and [import_module] as modelled above, for a program
    configured with [roots] and [ext].  [main] is the module object that
    the registry holds, so [main.imports.pop()] changes the registered
    module.  The assertions [is not None] and [isinstance] hold by the
    type of [module_object]. *)
Definition test_parse_import_module_path (roots : list string) (ext : string)
    (fuel : nat) : test_outcome :=
  match resolveEntry roots ext "import builtins" with
  | None => Uncaught (ParseError "__main__")
  | Some code =>
      match modules code !! "__main__" with
      | None => KeyError
      | Some main =>
          if bool_decide (set_map (D := gset string) str (imports main)
                          = {[ "builtins" ]})
          then
            match pop (imports main) with
            | None => KeyError
            | Some (builtins_module_decl, rest) =>
                let code :=
                  set_modules (alter (set_imports rest) "__main__") code in
                match importModule fuel builtins_module_decl code with
                | Return module_object code =>
                    if bool_decide (name module_object = "builtins")
                    then
                      match path module_object with
                      | Some file =>
                          if exists_file file
                          then match builder module_object with
                               | Some _ => Passed code
                               | None => AssertionFailed 18
                               end
                          else AssertionFailed 17
                      | None => AssertionFailed 17
                      end
                    else AssertionFailed 16
                | Raise e _ => Uncaught e
                | OutOfFuel => Unfinished
                end
            end
          else AssertionFailed 8
      end
  end.

(** *** Vocabulary of the statements *)

(** [n] is not resolved and not in progress: unregistered, or failed. *)
Definition unresolved (p : CompiledProgram) (n : string) : Prop :=
  ∀ m, modules p !! n = Some m → state m = Failed.

Definition resolved (p : CompiledProgram) (n : string) : Prop :=
  ∃ m, modules p !! n = Some m ∧ state m = Resolved.

(** The artifact of [decl] is found on the search path of [p] and parses
    to [ast]. *)
Definition artifact (p : CompiledProgram) (decl : ImportDeclaration)
    (file : string) (ast : Ast) : Prop :=
  locate (fileExtension p) (decl_module decl) (searchRoots p) = inr file
  ∧ fs !! file ≫= parse = Some ast.

(** [ast] imports [d0], and everything else it imports is resolved
    already. *)
Definition imports_only (p : CompiledProgram) (ast : Ast)
    (d0 : ImportDeclaration) : Prop :=
  d0 ∈ top_level_imports ast
  ∧ ∀ d, d ∈ top_level_imports ast → d ≠ d0 → resolved p (canonical_name d).

(** The state in which the imports of [decl] are walked: the module is
    registered, in progress, and its text has gone to the parser. *)
Definition loading (decl : ImportDeclaration) (p : CompiledProgram)
    : CompiledProgram :=
  log_parse (canonical_name decl)
    (mark (canonical_name decl) Pending (getOrCreate (canonical_name decl) p).2).

(** The names in progress. *)
Definition pending (p : CompiledProgram) : gset string :=
  dom (filter (λ km, state km.2 = Pending) (modules p)).

(** The names that the text of one file imports. *)
Definition names_imported_by (source : string) : gset string :=
  match parse source with
  | Some ast => set_map canonical_name (top_level_imports ast)
  | None => ∅
  end.

(** The names that the files of the file system import: all the names a
    resolution can meet below its first call. *)
Definition imported_names : gset string :=
  ⋃ ((λ kv, names_imported_by kv.2) <$> map_to_list fs).

(** How often [n] was handed to the parser. *)
Definition parse_count (p : CompiledProgram) (n : string) : nat :=
  length (filter (λ k, k = n) (parse_log p)).

(** The registry is well formed: every module is registered under its
    own name, and distinct entries are distinct objects, older than the
    next one to be created. *)
Definition registry_wf (p : CompiledProgram) : Prop :=
  (∀ k m, modules p !! k = Some m → name m = k ∧ mod_id m < next_id p)
  ∧ ∀ k1 k2 m1 m2, modules p !! k1 = Some m1 → modules p !! k2 = Some m2 →
      mod_id m1 = mod_id m2 → k1 = k2.

(** [p'] is a later state of [p]: the configuration is the same; the
    modules of [p] that are resolved or in progress are in [p'] as they
    were; nothing new is left in progress; and what was parsed in between
    (the names [l]) is none of those names. *)
Definition extends (p p' : CompiledProgram) : Prop :=
  searchRoots p' = searchRoots p
  ∧ fileExtension p' = fileExtension p
  ∧ next_id p ≤ next_id p'
  ∧ (∀ k m, modules p !! k = Some m → state m ≠ Failed →
            modules p' !! k = Some m)
  ∧ (∀ k m, modules p' !! k = Some m → state m = Pending →
            modules p !! k = Some m)
  ∧ ∃ l, parse_log p' = l ++ parse_log p
      ∧ ∀ k m, modules p !! k = Some m → state m ≠ Failed → k ∉ l.

(** The same, but for the name [n] that is being loaded. *)
Definition extends_except (n : string) (p p' : CompiledProgram) : Prop :=
  searchRoots p' = searchRoots p
  ∧ fileExtension p' = fileExtension p
  ∧ next_id p ≤ next_id p'
  ∧ (∀ k m, k ≠ n → modules p !! k = Some m → state m ≠ Failed →
            modules p' !! k = Some m)
  ∧ (∀ k m, k ≠ n → modules p' !! k = Some m → state m = Pending →
            modules p !! k = Some m)
  ∧ ∃ l, parse_log p' = l ++ parse_log p
      ∧ ∀ k m, k ≠ n → modules p !! k = Some m → state m ≠ Failed → k ∉ l.

(** What a resolution leaves behind. *)
Definition continues {A} (p : CompiledProgram) (o : outcome A) : Prop :=
  match o with
  | Return _ p' | Raise _ p' =>
      extends p p' ∧ (registry_wf p → registry_wf p')
  | OutOfFuel => True
  end.

End resolver.

(** A test double of the parser, which knows the texts of the scenarios:
    one import statement, or nothing.  Its AST is the set of imports. *)
Definition test_parse (source : string) : option (gset ImportDeclaration) :=
  if decide (source = "") then Some ∅
  else if decide (source = "import builtins")
  then Some {[ mkImport ["builtins"] None None ]}
  else if decide (source = "import a") then Some {[ mkImport ["a"] None None ]}
  else if decide (source = "import b") then Some {[ mkImport ["b"] None None ]}
  else if decide (source = "import __main__")
  then Some {[ mkImport ["__main__"] None None ]}
  else if decide (source = "import a, c")
  then Some {[ mkImport ["a"] None None; mkImport ["c"] None None ]}
  else None.

Definition test_parser : Parser :=
  {| Ast := gset ImportDeclaration; parse := test_parse;
     top_level_imports ast := ast |}.

(** The file systems of the scenarios: a library root with [builtins],
    and a source root with two modules that import each other. *)
Definition lib_fs : gmap string string := {[ "lib/builtins.py" := "" ]}.

Definition cyclic_fs : gmap string string :=
  {[ "src/a.py" := "import b"; "src/b.py" := "import a" ]}.

Definition selfish_fs : gmap string string := {[ "src/a.py" := "import a" ]}.

(** ... and a module that imports itself and a module that is nowhere. *)
Definition distracted_fs : gmap string string :=
  {[ "src/a.py" := "import a, c" ]}.

End Monty.

Import Magic Monty.

(** * Facts about the generator *)

(** Closed decidable goals are settled by evaluation. *)
Ltac by_compute := apply (bool_decide_unpack _); vm_compute; exact I.

Section strings.

Lemma append_nil_r (s : string) : s +:+ "" = s.
Proof. induction s as [|c s IH]; [done|]. by rewrite <-IH at 2. Qed.

Lemma append_assoc (a b c : string) : (a +:+ b) +:+ c = a +:+ b +:+ c.
Proof.
  induction a as [|x a IH]; [done|].
  change (String x ((a +:+ b) +:+ c) = String x (a +:+ b +:+ c)).
  by rewrite IH.
Qed.

Lemma append_length (a b : string) :
  String.length (a +:+ b) = String.length a + String.length b.
Proof.
  induction a as [|x a IH]; [done|].
  change (String.length (String x a +:+ b))
    with (S (String.length (a +:+ b))).
  rewrite IH. done.
Qed.

Lemma append_inv_tail (a b c : string) : a +:+ c = b +:+ c → a = b.
Proof.
  revert b. induction a as [|x a IH]; intros [|y b] H.
  - done.
  - apply (f_equal String.length) in H. rewrite !append_length in H.
    simpl in H. lia.
  - apply (f_equal String.length) in H. rewrite !append_length in H.
    simpl in H. lia.
  - change (String x (a +:+ c) = String y (b +:+ c)) in H.
    injection H as -> H. f_equal. by apply IH.
Qed.

Lemma all_chars_app P (a b : string) :
  all_chars P (a +:+ b) = all_chars P a && all_chars P b.
Proof.
  induction a as [|x a IH]; [done|].
  change (P x && all_chars P (a +:+ b) = P x && all_chars P a && all_chars P b).
  rewrite IH. by destruct (P x).
Qed.

Lemma all_chars_impl (P Q : Ascii.ascii → bool) (s : string) :
  (∀ c, P c = true → Q c = true) →
  all_chars P s = true → all_chars Q s = true.
Proof.
  intros HPQ. induction s as [|c s IH]; [done|]. simpl.
  intros [??]%andb_true_iff. apply andb_true_iff. auto.
Qed.

Lemma plain_one_line (s : string) : plain s = true → one_line s = true.
Proof.
  apply all_chars_impl. by intros c [??]%andb_true_iff.
Qed.

End strings.

(** ** From the output text to its lines *)

Section listing.

Lemma append_cons (x : Ascii.ascii) (a b : string) :
  String x a +:+ b = String x (a +:+ b).
Proof. reflexivity. Qed.

Lemma lines_terminated_cons (a : string) : lines (a +:+ nl) ≠ [].
Proof.
  induction a as [|c a IH]; [done|].
  rewrite append_cons. simpl. destruct (Ascii.eqb c LF); [done|].
  by destruct (lines (a +:+ nl)).
Qed.

(** A line feed that ends a line separates what follows from it. *)
Lemma lines_app_terminated (a b : string) :
  lines ((a +:+ nl) +:+ b) = lines (a +:+ nl) ++ lines b.
Proof.
  induction a as [|c a IH]; [done|].
  rewrite !append_cons. simpl. destruct (Ascii.eqb c LF).
  - by rewrite IH.
  - rewrite IH. pose proof (lines_terminated_cons a).
    by destruct (lines (a +:+ nl)).
Qed.

Lemma lines_one_line (s : string) :
  one_line s = true → lines (s +:+ nl) = [s].
Proof.
  unfold one_line. induction s as [|c s IH]; [done|].
  simpl. intros [Hc Hs]%andb_true_iff.
  apply negb_true_iff in Hc. rewrite Hc, (IH Hs). done.
Qed.

Lemma text_app (l1 l2 : list string) : text (l1 ++ l2) = text l1 +:+ text l2.
Proof.
  induction l1 as [|p l1 IH]; [done|]. simpl. by rewrite IH, !append_assoc.
Qed.

Lemma lines_text_cons (p : string) (ps : list string) :
  lines (text (p :: ps)) = lines (p +:+ nl) ++ lines (text ps).
Proof. simpl. by rewrite <-append_assoc, lines_app_terminated. Qed.

Lemma lines_text_app (l1 l2 : list string) :
  lines (text (l1 ++ l2)) = lines (text l1) ++ lines (text l2).
Proof.
  induction l1 as [|p l1 IH]; [done|].
  rewrite <-app_comm_cons, !lines_text_cons, IH. by rewrite (assoc_L (++)).
Qed.

Lemma lines_text (ps : list string) :
  Forall (λ p, one_line p = true) ps → lines (text ps) = ps.
Proof.
  induction 1 as [|p ps Hp _ IH]; [done|].
  by rewrite lines_text_cons, lines_one_line, IH.
Qed.

(** *** The script prints what the loop bodies list *)

Lemma print_text (s : string) (out : stdout) : print s out = out +:+ text [s].
Proof. unfold print. simpl. by rewrite append_nil_r. Qed.

Lemma for_each_text {A} (f : A → list string) body (order : list A) out :
  (∀ x o, body x o = o +:+ text (f x)) →
  for_each order body out = out +:+ text (order ≫= f).
Proof.
  intros Hbody. unfold for_each. revert out.
  induction order as [|x order IH]; intros out; simpl.
  - by rewrite append_nil_r.
  - rewrite IH, Hbody, text_app. by rewrite append_assoc.
Qed.

Lemma emit_builtin_text b o : emit_builtin b o = o +:+ text [b].
Proof. apply print_text. Qed.

Lemma emit_dunder_text d o : emit_dunder d o = o +:+ text (dunder_lines d).
Proof.
  unfold emit_dunder, dunder_lines. case_decide.
  - rewrite !print_text, append_assoc. by rewrite <-text_app.
  - by rewrite print_text.
Qed.

Lemma emit_ctype_text c o : emit_ctype c o = o +:+ text (ctype_lines c).
Proof.
  unfold emit_ctype, ctype_lines.
  rewrite !print_text, append_assoc. by rewrite <-text_app.
Qed.

Lemma bind_singleton (l : list string) : l ≫= (λ b, [b]) = l.
Proof. induction l as [|x l IH]; [done|]. by rewrite bind_cons, IH. Qed.

Lemma builtins_text bs o : for_each bs emit_builtin o = o +:+ text bs.
Proof.
  rewrite (for_each_text (λ b, [b])) by apply emit_builtin_text.
  by rewrite bind_singleton.
Qed.

Lemma dunders_text ds o :
  for_each ds emit_dunder o = o +:+ text (ds ≫= dunder_lines).
Proof. apply for_each_text, emit_dunder_text. Qed.

Lemma ctypes_text cs o :
  for_each cs emit_ctype o = o +:+ text (cs ≫= ctype_lines).
Proof. apply for_each_text, emit_ctype_text. Qed.

(** The output of the script is the header, an empty line, the lines of
    the three loops and the line of [__value]. *)
Lemma main_text bs ds cs :
  main bs ds cs =
  text ([header; ""] ++ bs ++ (ds ≫= dunder_lines) ++ (cs ≫= ctype_lines)
        ++ [value_line]).
Proof.
  unfold main.
  rewrite (print_text value_line), ctypes_text, dunders_text, builtins_text.
  rewrite !text_app, !append_assoc. f_equal.
Qed.

End listing.

(** ** From the lines to the identifiers *)

Section identifiers.

Lemma plain_app (a b : string) :
  plain (a +:+ b) = plain a && plain b.
Proof. apply all_chars_app. Qed.

Lemma one_line_app (a b : string) :
  one_line (a +:+ b) = one_line a && one_line b.
Proof. apply all_chars_app. Qed.

(** The identifier of a line ends where its comment starts. *)
Lemma line_name_comment (i : string) (c : Ascii.ascii) (rest : string) :
  plain i = true → ends_name c = true →
  line_name (i +:+ String c rest) = i.
Proof.
  intros Hi Hc. induction i as [|x i IH]; simpl.
  - by rewrite Hc.
  - simpl in Hi. apply andb_true_iff in Hi as [Hx Hi].
    apply andb_true_iff in Hx as [_ Hx]. apply negb_true_iff in Hx.
    rewrite Hx. f_equal. by apply IH.
Qed.

Lemma line_name_plain (i : string) : plain i = true → line_name i = i.
Proof.
  intros Hi. induction i as [|x i IH]; simpl; [done|].
  simpl in Hi. apply andb_true_iff in Hi as [Hx Hi].
  apply andb_true_iff in Hx as [_ Hx]. apply negb_true_iff in Hx.
  rewrite Hx. f_equal. by apply IH.
Qed.

Lemma names_text_app (l1 l2 : list string) :
  names (text (l1 ++ l2)) = names (text l1) ++ names (text l2).
Proof.
  unfold names. by rewrite lines_text_app, fmap_app, filter_app.
Qed.

Lemma names_text_cons (p : string) (ps : list string) :
  names (text (p :: ps)) = names (text [p]) ++ names (text ps).
Proof. apply (names_text_app [p]). Qed.

(** A line made of an identifier and a comment contributes that
    identifier. *)
Lemma names_text_line (i comment : string) :
  plain i = true → i ≠ "" → one_line comment = true →
  line_name (i +:+ comment) = i →
  names (text [i +:+ comment]) = [i].
Proof.
  intros Hi Hne Hc Hname. unfold names.
  rewrite lines_text.
  - simpl. rewrite Hname. by rewrite filter_cons_True.
  - constructor; [|done]. rewrite one_line_app, Hc.
    by rewrite (plain_one_line _ Hi).
Qed.

(** The three loops, on table entries that are plain identifiers. *)
Lemma builtin_names_text bs : builtin_names bs = names (text bs).
Proof. unfold builtin_names. by rewrite builtins_text. Qed.

Lemma dunder_names_text ds :
  dunder_names ds = names (text (ds ≫= dunder_lines)).
Proof. unfold dunder_names. by rewrite dunders_text. Qed.

Lemma ctype_names_text cs :
  ctype_names cs = names (text (cs ≫= ctype_lines)).
Proof. unfold ctype_names. by rewrite ctypes_text. Qed.

Lemma builtin_names_plain bs :
  Forall (λ b, plain b = true) bs →
  builtin_names bs = filter (λ x, x ≠ "") bs.
Proof.
  rewrite builtin_names_text.
  induction 1 as [|b bs Hb _ IH]; [done|].
  rewrite names_text_cons, IH. destruct (decide (b = "")) as [->|Hne].
  - by rewrite filter_cons_False by naive_solver.
  - rewrite filter_cons_True by done.
    rewrite <-(append_nil_r b) at 1. rewrite names_text_line; try done.
    rewrite append_nil_r. by apply line_name_plain.
Qed.

Lemma names_dunder_lines d :
  plain d = true → names (text (dunder_lines d)) = dunder_idents d.
Proof.
  intros Hd. unfold dunder_lines, dunder_idents.
  assert (∀ p, plain p = true → p ≠ "" →
    names (text [p +:+ d +:+ "__" +:+ ignore]) = [p +:+ d +:+ "__"]) as Hline.
  { intros p Hp Hne. rewrite <-!append_assoc. apply names_text_line.
    - by rewrite !plain_app, Hp, Hd.
    - destruct p; [done|]. by rewrite !append_cons.
    - done.
    - apply line_name_comment; [|done]. by rewrite !plain_app, Hp, Hd. }
  rewrite names_text_cons, Hline by done. case_decide.
  - by rewrite Hline.
  - done.
Qed.

Lemma names_ctype_lines c :
  plain c = true → names (text (ctype_lines c)) = ctype_idents c.
Proof.
  intros Hc. unfold ctype_lines, ctype_idents.
  rewrite names_text_cons.
  assert (names (text ["c_" +:+ c +:+ ignore]) = ["c_" +:+ c]) as ->.
  { rewrite <-append_assoc. apply names_text_line.
    - by rewrite plain_app, Hc.
    - by rewrite !append_cons.
    - done.
    - apply line_name_comment; [|done]. by rewrite plain_app, Hc. }
  change ("c_" +:+ c +:+ "_p # type: ignore")
    with ("c_" +:+ c +:+ "_p" +:+ " # type: ignore").
  rewrite <-!append_assoc, names_text_line; [done|..].
  - by rewrite !plain_app, Hc.
  - by rewrite !append_cons.
  - done.
  - apply line_name_comment; [|done]. by rewrite !plain_app, Hc.
Qed.

Lemma names_bind_lines (f g : string → list string) (l : list string) :
  Forall (λ x, names (text (f x)) = g x) l →
  names (text (l ≫= f)) = l ≫= g.
Proof.
  induction 1 as [|x l Hx _ IH]; [done|].
  by rewrite !bind_cons, names_text_app, Hx, IH.
Qed.

Lemma dunder_names_plain ds :
  Forall (λ d, plain d = true) ds → dunder_names ds = ds ≫= dunder_idents.
Proof.
  intros Hds. rewrite dunder_names_text. apply names_bind_lines.
  eapply Forall_impl; [done|]. apply names_dunder_lines.
Qed.

Lemma ctype_names_plain cs :
  Forall (λ c, plain c = true) cs → ctype_names cs = cs ≫= ctype_idents.
Proof.
  intros Hcs. rewrite ctype_names_text. apply names_bind_lines.
  eapply Forall_impl; [done|]. apply names_ctype_lines.
Qed.

(** The identifiers of the whole listing, whatever the tables hold: those
    of the three loops, then [__value]. *)
Lemma names_main bs ds cs :
  names (main bs ds cs) =
  builtin_names bs ++ dunder_names ds ++ ctype_names cs ++ ["__value"].
Proof.
  rewrite main_text, !names_text_app.
  by rewrite builtin_names_text, dunder_names_text, ctype_names_text.
Qed.

End identifiers.

(** ** Runs of the script on the in-source tables *)

Section runs.

Lemma tables_plain :
  Forall (λ b, plain b = true) BUILTINS ∧ Forall (λ d, plain d = true) DUNDERS
  ∧ Forall (λ c, plain c = true) CTYPES.
Proof. repeat split; by_compute. Qed.

Lemma run_plain bs ds cs :
  run bs ds cs →
  Forall (λ b, plain b = true) bs ∧ Forall (λ d, plain d = true) ds
  ∧ Forall (λ c, plain c = true) cs.
Proof.
  intros (Hb & Hd & Hc). rewrite Hb, Hd, Hc. apply tables_plain.
Qed.

Lemma run_refl : run BUILTINS DUNDERS CTYPES.
Proof. by repeat split. Qed.

Lemma run_reverse : run (reverse BUILTINS) (reverse DUNDERS) (reverse CTYPES).
Proof. repeat split; apply reverse_Permutation. Qed.

Lemma dunder_lines_one_line d :
  plain d = true → Forall (λ p, one_line p = true) (dunder_lines d).
Proof.
  intros Hd%plain_one_line. unfold dunder_lines.
  case_decide; repeat constructor; by rewrite !one_line_app, Hd.
Qed.

Lemma ctype_lines_one_line c :
  plain c = true → Forall (λ p, one_line p = true) (ctype_lines c).
Proof.
  intros Hc%plain_one_line. unfold ctype_lines.
  repeat constructor; by rewrite !one_line_app, Hc.
Qed.

(** On plain tables the lines of the output are the printed strings. *)
Lemma lines_main bs ds cs :
  Forall (λ b, plain b = true) bs → Forall (λ d, plain d = true) ds →
  Forall (λ c, plain c = true) cs →
  lines (main bs ds cs) =
  [header; ""] ++ bs ++ (ds ≫= dunder_lines) ++ (cs ≫= ctype_lines)
  ++ [value_line].
Proof.
  intros Hb Hd Hc. rewrite main_text. apply lines_text.
  rewrite !Forall_app. repeat split.
  - by repeat constructor.
  - eapply Forall_impl; [done|]. apply plain_one_line.
  - apply Forall_bind. eapply Forall_impl; [done|].
    apply dunder_lines_one_line.
  - apply Forall_bind. eapply Forall_impl; [done|].
    apply ctype_lines_one_line.
  - by repeat constructor.
Qed.

Lemma lines_run_Permutation bs ds cs :
  run bs ds cs →
  lines (main bs ds cs) ≡ₚ lines (main BUILTINS DUNDERS CTYPES).
Proof.
  intros Hrun. destruct (run_plain _ _ _ Hrun) as (?&?&?).
  destruct tables_plain as (?&?&?). destruct Hrun as (Hb & Hd & Hc).
  rewrite !lines_main by done. by rewrite Hb, Hd, Hc.
Qed.

Lemma names_run_Permutation bs ds cs :
  run bs ds cs →
  names (main bs ds cs) ≡ₚ names (main BUILTINS DUNDERS CTYPES).
Proof.
  intros Hrun. unfold names. by rewrite (lines_run_Permutation _ _ _ Hrun).
Qed.

Lemma names_run_elem bs ds cs x :
  run bs ds cs →
  x ∈ names (main bs ds cs) ↔ x ∈ names (main BUILTINS DUNDERS CTYPES).
Proof. intros Hrun. by rewrite (names_run_Permutation _ _ _ Hrun). Qed.

(** C10 — The generator reads nothing: its output is a function of the
    iteration orders of its three in-source tables alone, and any two
    runs print the same lines and list the same identifiers up to order
    (the same multiset, hence the same set). *)
Theorem listing_deterministic bs ds cs bs' ds' cs' :
  run bs ds cs → run bs' ds' cs' →
  lines (main bs ds cs) ≡ₚ lines (main bs' ds' cs')
  ∧ (∀ l, l ∈ lines (main bs ds cs) ↔ l ∈ lines (main bs' ds' cs'))
  ∧ names (main bs ds cs) ≡ₚ names (main bs' ds' cs')
  ∧ (∀ x, x ∈ names (main bs ds cs) ↔ x ∈ names (main bs' ds' cs')).
Proof.
  intros H H'.
  assert (lines (main bs ds cs) ≡ₚ lines (main bs' ds' cs')) as Hl.
  { by rewrite (lines_run_Permutation _ _ _ H),
      (lines_run_Permutation _ _ _ H'). }
  assert (names (main bs ds cs) ≡ₚ names (main bs' ds' cs')) as Hn.
  { unfold names. by rewrite Hl. }
  repeat split; try done.
  - by rewrite Hl.
  - by rewrite Hl.
  - by rewrite Hn.
  - by rewrite Hn.
Qed.

Lemma listing_deterministic_witness :
  lines (main BUILTINS DUNDERS CTYPES)
    ≡ₚ lines (main (reverse BUILTINS) (reverse DUNDERS) (reverse CTYPES))
  ∧ (∀ l, l ∈ lines (main BUILTINS DUNDERS CTYPES)
       ↔ l ∈ lines (main (reverse BUILTINS) (reverse DUNDERS) (reverse CTYPES)))
  ∧ names (main BUILTINS DUNDERS CTYPES)
    ≡ₚ names (main (reverse BUILTINS) (reverse DUNDERS) (reverse CTYPES))
  ∧ (∀ x, x ∈ names (main BUILTINS DUNDERS CTYPES)
       ↔ x ∈ names (main (reverse BUILTINS) (reverse DUNDERS) (reverse CTYPES))).
Proof.
  apply (listing_deterministic BUILTINS DUNDERS CTYPES
           (reverse BUILTINS) (reverse DUNDERS) (reverse CTYPES)).
  - exact run_refl.
  - exact run_reverse.
Defined.

End runs.

(** ** The special-method names *)

Section dunders.

(** C3, as stated, fails: [eq] is in the table and its reflected
    counterpart is not listed. *)
Lemma reflected_eq_missing :
  ¬ (∀ d, d ∈ DUNDERS →
       "__" +:+ d +:+ "__" ∈ names (main BUILTINS DUNDERS CTYPES)
       ∧ "__r" +:+ d +:+ "__" ∈ names (main BUILTINS DUNDERS CTYPES)).
Proof.
  intros H. destruct (H "eq") as [_ Hr]; [by_compute|].
  revert Hr. by_compute.
Qed.

(** C3 (amended) — In every run, the listing contains the special-method
    name [__d__] of every table entry [d], and its reflected counterpart
    [__rd__] for every entry except [eq], which the script skips:
    [__req__] is not listed. *)
Theorem dunders_listed bs ds cs d :
  run bs ds cs → d ∈ DUNDERS →
  "__" +:+ d +:+ "__" ∈ names (main bs ds cs)
  ∧ (d ≠ "eq" → "__r" +:+ d +:+ "__" ∈ names (main bs ds cs))
  ∧ (d = "eq" → "__r" +:+ d +:+ "__" ∉ names (main bs ds cs)).
Proof.
  intros Hrun Hd. rewrite !(names_run_elem _ _ _ _ Hrun).
  revert d Hd. apply Forall_forall. by_compute.
Qed.

Lemma dunders_listed_witness :
  "__" +:+ "eq" +:+ "__" ∈ names (main BUILTINS DUNDERS CTYPES)
  ∧ ("eq" ≠ "eq" → "__r" +:+ "eq" +:+ "__" ∈ names (main BUILTINS DUNDERS CTYPES))
  ∧ ("eq" = "eq" → "__r" +:+ "eq" +:+ "__" ∉ names (main BUILTINS DUNDERS CTYPES)).
Proof.
  apply (dunders_listed BUILTINS DUNDERS CTYPES "eq").
  - exact run_refl.
  - by_compute.
Defined.

End dunders.

(** ** Membership in the listing *)

Section membership.

Lemma run_builtin_names bs ds cs :
  run bs ds cs → builtin_names bs ≡ₚ BUILTINS.
Proof.
  intros Hrun. destruct (run_plain _ _ _ Hrun) as (Hp & _ & _).
  destruct Hrun as (Hb & _ & _).
  rewrite builtin_names_plain, Hb by done. by vm_compute.
Qed.

Lemma run_dunder_names bs ds cs :
  run bs ds cs → dunder_names ds ≡ₚ DUNDERS ≫= dunder_idents.
Proof.
  intros Hrun. destruct (run_plain _ _ _ Hrun) as (_ & Hp & _).
  destruct Hrun as (_ & Hd & _). by rewrite dunder_names_plain, Hd.
Qed.

Lemma run_ctype_names bs ds cs :
  run bs ds cs → ctype_names cs ≡ₚ CTYPES ≫= ctype_idents.
Proof.
  intros Hrun. destruct (run_plain _ _ _ Hrun) as (_ & _ & Hp).
  destruct Hrun as (_ & _ & Hc). by rewrite ctype_names_plain, Hc.
Qed.

Lemma elem_of_ctype_names bs ds cs x :
  run bs ds cs →
  x ∈ ctype_names cs ↔
  ∃ t, t ∈ CTYPES ∧ (x = "c_" +:+ t ∨ x = "c_" +:+ t +:+ "_p").
Proof.
  intros Hrun. rewrite (run_ctype_names _ _ _ Hrun), list_elem_of_bind.
  unfold ctype_idents. split.
  - intros (t & Hx & Ht). exists t. split; [done|].
    apply elem_of_cons in Hx as [Hx|Hx%list_elem_of_singleton]; auto.
  - intros (t & Ht & [->| ->]); exists t; split; try done.
    + apply elem_of_cons; auto.
    + apply elem_of_cons; right. by apply list_elem_of_singleton.
Qed.

Lemma elem_of_dunder_names bs ds cs x :
  run bs ds cs →
  x ∈ dunder_names ds ↔
  ∃ d, d ∈ DUNDERS ∧
    (x = "__" +:+ d +:+ "__" ∨ (d ≠ "eq" ∧ x = "__r" +:+ d +:+ "__")).
Proof.
  intros Hrun. rewrite (run_dunder_names _ _ _ Hrun), list_elem_of_bind.
  unfold dunder_idents. split.
  - intros (d & Hx & Hd). exists d. split; [done|].
    apply elem_of_cons in Hx as [Hx|Hx]; [by left|right].
    case_decide; [|by apply elem_of_nil in Hx].
    by apply list_elem_of_singleton in Hx.
  - intros (d & Hd & Hx). exists d. split; [|done].
    apply elem_of_cons. destruct Hx as [->|[Hne ->]]; [by left|right].
    rewrite decide_True by done. by apply list_elem_of_singleton.
Qed.

End membership.

(** ** The foreign-type aliases *)

Section ctypes.

Lemma rev_app_app (a b acc : string) :
  String.rev_app (a +:+ b) acc = String.rev_app b (String.rev_app a acc).
Proof.
  revert acc. induction a as [|x a IH]; intros acc; [done|].
  rewrite append_cons. simpl. apply IH.
Qed.

Lemma ends_with_p (t : string) : ends_with "_p" (t +:+ "_p") = true.
Proof.
  unfold ends_with, String.rev. rewrite rev_app_app. simpl.
  by destruct (String.rev_app t "").
Qed.

Lemma ends_with_underscores (t : string) : ends_with "__" (t +:+ "__") = true.
Proof.
  unfold ends_with, String.rev. rewrite rev_app_app. simpl.
  by destruct (String.rev_app t "").
Qed.

(** No table entry is itself spelled like a pointer variant. *)
Lemma ctypes_not_pointers : Forall (λ c, ends_with "_p" c = false) CTYPES.
Proof. by_compute. Qed.

Lemma pointer_alias_base bs ds cs t :
  run bs ds cs → "c_" +:+ t +:+ "_p" ∈ names (main bs ds cs) → t ∈ CTYPES.
Proof.
  intros Hrun. rewrite names_main, !elem_of_app.
  rewrite (run_builtin_names _ _ _ Hrun), (elem_of_dunder_names _ _ _ _ Hrun),
    (elem_of_ctype_names _ _ _ _ Hrun), list_elem_of_singleton.
  intros [Hb|[(d & _ & Hd)|[(c & Hc & Hx)|Hv]]].
  - exfalso. revert Hb.
    assert (Forall (λ b, ∀ s, b ≠ "c_" +:+ s) BUILTINS) as Hall.
    { repeat constructor; intros s; by rewrite !append_cons. }
    intros Hb. rewrite Forall_forall in Hall.
    by apply (Hall _ Hb (t +:+ "_p")).
  - exfalso. rewrite !append_cons in Hd. by destruct Hd as [?|[_ ?]].
  - destruct Hx as [Hx|Hx].
    + apply (inj (String.app "c_")) in Hx. exfalso.
      pose proof ctypes_not_pointers as Hall.
      eapply Forall_forall in Hall; [|done].
      by rewrite <-Hx, ends_with_p in Hall.
    + apply (inj (String.app "c_")) in Hx.
      apply append_inv_tail in Hx. by subst.
  - exfalso. by rewrite !append_cons in Hv.
Qed.

(** C8 — In every run the listing contains, for every entry [t] of
    CTYPES, the alias [c_t] together with its pointer variant [c_t_p];
    a pointer variant [c_t_p] is listed only for an entry [t] of the
    table, and the aliases the loop lists are these and no others. *)
Theorem pointer_aliases_paired bs ds cs :
  run bs ds cs →
  (∀ t, t ∈ CTYPES →
     "c_" +:+ t ∈ names (main bs ds cs)
     ∧ "c_" +:+ t +:+ "_p" ∈ names (main bs ds cs))
  ∧ (∀ t, "c_" +:+ t +:+ "_p" ∈ names (main bs ds cs) → t ∈ CTYPES)
  ∧ (∀ x, x ∈ ctype_names cs ↔
       ∃ t, t ∈ CTYPES ∧ (x = "c_" +:+ t ∨ x = "c_" +:+ t +:+ "_p")).
Proof.
  intros Hrun. split; [|split].
  - intros t Ht. rewrite names_main, !elem_of_app.
    rewrite !(elem_of_ctype_names _ _ _ _ Hrun). split.
    + right; right; left. exists t. auto.
    + right; right; left. exists t. auto.
  - intros t. by apply pointer_alias_base.
  - intros x. apply (elem_of_ctype_names _ _ _ _ Hrun).
Qed.

Lemma pointer_aliases_paired_witness :
  (∀ t, t ∈ CTYPES →
     "c_" +:+ t ∈ names (main BUILTINS DUNDERS CTYPES)
     ∧ "c_" +:+ t +:+ "_p" ∈ names (main BUILTINS DUNDERS CTYPES))
  ∧ (∀ t, "c_" +:+ t +:+ "_p" ∈ names (main BUILTINS DUNDERS CTYPES) →
       t ∈ CTYPES)
  ∧ (∀ x, x ∈ ctype_names CTYPES ↔
       ∃ t, t ∈ CTYPES ∧ (x = "c_" +:+ t ∨ x = "c_" +:+ t +:+ "_p")).
Proof. apply (pointer_aliases_paired BUILTINS DUNDERS CTYPES), run_refl. Defined.

End ctypes.

(** ** The categories of identifiers *)

Section categories.

Lemma tables_disjoint :
  Forall (λ x, (x ∉ DUNDERS ≫= dunder_idents) ∧ (x ∉ CTYPES ≫= ctype_idents))
    BUILTINS
  ∧ Forall (λ x, x ∉ CTYPES ≫= ctype_idents) (DUNDERS ≫= dunder_idents).
Proof. split; by_compute. Qed.

Lemma run_disjoint bs ds cs :
  run bs ds cs →
  (∀ x, x ∈ builtin_names bs →
     (x ∉ dunder_names ds) ∧ (x ∉ ctype_names cs))
  ∧ (∀ x, x ∈ dunder_names ds → x ∉ ctype_names cs).
Proof.
  intros Hrun. destruct tables_disjoint as [Hb Hd].
  rewrite Forall_forall in Hb. rewrite Forall_forall in Hd.
  split; intros x;
    rewrite ?(run_builtin_names _ _ _ Hrun), ?(run_dunder_names _ _ _ Hrun),
      ?(run_ctype_names _ _ _ Hrun); auto.
Qed.

(** C7 — In every run the names the listing emits for builtins, for
    special methods and for foreign-type aliases are pairwise disjoint,
    so membership in the table puts every identifier in exactly one of
    the four categories. *)
Theorem categories_partition bs ds cs :
  run bs ds cs →
  (∀ x, ∃ c, in_category bs ds cs c x
          ∧ ∀ c', in_category bs ds cs c' x → c' = c)
  ∧ (∀ x, x ∈ builtin_names bs →
       (x ∉ dunder_names ds) ∧ (x ∉ ctype_names cs))
  ∧ (∀ x, x ∈ dunder_names ds → x ∉ ctype_names cs).
Proof.
  intros Hrun. destruct (run_disjoint _ _ _ Hrun) as [Hb Hd].
  split; [|done]. intros x.
  destruct (decide (x ∈ builtin_names bs)) as [Hxb|Hxb];
    [|destruct (decide (x ∈ dunder_names ds)) as [Hxd|Hxd];
      [|destruct (decide (x ∈ ctype_names cs)) as [Hxc|Hxc]]].
  - exists Builtin. split; [done|]. destruct (Hb _ Hxb).
    intros [] Hc'; simpl in Hc'; try reflexivity; tauto.
  - exists SpecialMethod. split; [done|]. pose proof (Hd _ Hxd).
    intros [] Hc'; simpl in Hc'; try reflexivity; tauto.
  - exists ForeignTypeAlias. split; [done|].
    intros [] Hc'; simpl in Hc'; try reflexivity; tauto.
  - exists Ordinary. split; [done|].
    intros [] Hc'; simpl in Hc'; try reflexivity; tauto.
Qed.

Lemma categories_partition_witness :
  (∀ x, ∃ c, in_category BUILTINS DUNDERS CTYPES c x
          ∧ ∀ c', in_category BUILTINS DUNDERS CTYPES c' x → c' = c)
  ∧ (∀ x, x ∈ builtin_names BUILTINS →
       (x ∉ dunder_names DUNDERS) ∧ (x ∉ ctype_names CTYPES))
  ∧ (∀ x, x ∈ dunder_names DUNDERS → x ∉ ctype_names CTYPES).
Proof. apply (categories_partition BUILTINS DUNDERS CTYPES), run_refl. Defined.

End categories.

(** ** The header and the interpreter's identifier *)

Section frame.

Lemma head_lines_main bs ds cs : head (lines (main bs ds cs)) = Some header.
Proof.
  rewrite main_text, lines_text_app.
  by rewrite (lines_text [header; ""]) by by_compute.
Qed.

Lemma last_lines_main bs ds cs :
  last (lines (main bs ds cs)) = Some value_line.
Proof.
  rewrite main_text, !(assoc_L (++)), lines_text_app.
  by rewrite (lines_text [value_line]), last_snoc by by_compute.
Qed.

Lemma last_names_main bs ds cs : last (names (main bs ds cs)) = Some "__value".
Proof. by rewrite names_main, !(assoc_L (++)), last_snoc. Qed.

(** No special-method line and no alias line carries [__value]. *)
Lemma value_not_dunder ds :
  Forall (λ d, plain d = true) ds → "__value" ∉ dunder_names ds.
Proof.
  intros Hds. rewrite dunder_names_plain, list_elem_of_bind by done.
  intros (d & Hx & _). unfold dunder_idents in Hx.
  apply elem_of_cons in Hx as [Hx|Hx].
  - apply (f_equal (ends_with "__")) in Hx.
    by rewrite <-append_assoc, ends_with_underscores in Hx.
  - case_decide; [|by apply elem_of_nil in Hx].
    apply list_elem_of_singleton in Hx. rewrite !append_cons in Hx. done.
Qed.

Lemma value_not_ctype cs :
  Forall (λ c, plain c = true) cs → "__value" ∉ ctype_names cs.
Proof.
  intros Hcs. rewrite ctype_names_plain, list_elem_of_bind by done.
  intros (c & Hx & _). unfold ctype_idents in Hx.
  apply elem_of_cons in Hx as [Hx|Hx%list_elem_of_singleton];
    by rewrite !append_cons in Hx.
Qed.

(** C9, as stated, fails: a BUILTINS table that holds an object named
    [__value] makes the listing carry that identifier twice, once from
    the table. *)
Lemma value_from_builtins :
  "__value" ∈ builtin_names ["__value"]
  ∧ names (main ["__value"] [] []) = ["__value"; "__value"].
Proof. split; [by_compute|reflexivity]. Qed.

(** C9 (amended) — Whatever the three tables hold, the first line of the
    output is the do-not-edit header and the last line, and the last
    identifier, is that of [__value].  When the table entries are plain
    identifiers and no builtin is named [__value] (as in the in-source
    tables), that identifier is listed exactly once and none of the
    three loops emits it. *)
Theorem header_and_value bs ds cs :
  head (lines (main bs ds cs)) = Some header
  ∧ last (lines (main bs ds cs)) = Some value_line
  ∧ last (names (main bs ds cs)) = Some "__value"
  ∧ (Forall (λ b, plain b = true) bs → Forall (λ d, plain d = true) ds →
     Forall (λ c, plain c = true) cs → "__value" ∉ bs →
     ("__value" ∉ builtin_names bs ++ dunder_names ds ++ ctype_names cs)
     ∧ length (filter (λ x, x = "__value") (names (main bs ds cs))) = 1).
Proof.
  split; [apply head_lines_main|]. split; [apply last_lines_main|].
  split; [apply last_names_main|]. intros Hb Hd Hc Hv.
  assert ("__value" ∉ builtin_names bs ++ dunder_names ds ++ ctype_names cs)
    as Hnot.
  { rewrite !elem_of_app. intros [Hx|[Hx|Hx]].
    - rewrite builtin_names_plain in Hx by done.
      by apply list_elem_of_filter in Hx as [_ Hx].
    - by apply value_not_dunder in Hx.
    - by apply value_not_ctype in Hx. }
  split; [done|].
  rewrite names_main, !(assoc_L (++)), filter_app.
  rewrite <-!(assoc_L (++)).
  assert (filter (λ x, x = "__value")
            (builtin_names bs ++ dunder_names ds ++ ctype_names cs) = [])
    as ->; [|done].
  apply elem_of_nil_inv. intros x [-> Hx]%list_elem_of_filter. done.
Qed.

Lemma header_and_value_witness :
  head (lines (main BUILTINS DUNDERS CTYPES)) = Some header
  ∧ last (lines (main BUILTINS DUNDERS CTYPES)) = Some value_line
  ∧ last (names (main BUILTINS DUNDERS CTYPES)) = Some "__value"
  ∧ ("__value" ∉ builtin_names BUILTINS ++ dunder_names DUNDERS
                  ++ ctype_names CTYPES)
  ∧ length (filter (λ x, x = "__value")
              (names (main BUILTINS DUNDERS CTYPES))) = 1.
Proof.
  destruct (header_and_value BUILTINS DUNDERS CTYPES) as (Hh & Hl & Hn & H).
  repeat (split; [assumption|]).
  apply H; by_compute.
Defined.

End frame.

(** * Facts about the import resolution core *)

(** ** SourceLocator *)

Section locator.

Context `{Parser} (fs : gmap string string).

Lemma exists_file_true file : exists_file fs file = true ↔ is_Some (fs !! file).
Proof. unfold exists_file. by rewrite bool_decide_eq_true. Qed.

Lemma exists_file_false file : exists_file fs file = false ↔ fs !! file = None.
Proof.
  unfold exists_file. by rewrite bool_decide_eq_false, eq_None_not_Some.
Qed.

Lemma probe_skip ext moduleName pre rest :
  (∀ r, r ∈ pre → no_artifact fs ext moduleName r) →
  probe fs ext moduleName (pre ++ rest) = probe fs ext moduleName rest.
Proof.
  induction pre as [|r pre IH]; intros Hpre; [done|]. simpl.
  destruct (Hpre r) as [Hf Hp]; [by left|].
  apply exists_file_false in Hf. apply exists_file_false in Hp.
  rewrite Hf, Hp. apply IH. intros r' Hr'. apply Hpre. by right.
Qed.

Lemma probe_offer ext moduleName r rest file :
  offers fs ext moduleName r file →
  probe fs ext moduleName (r :: rest) = Some file.
Proof.
  intros [[-> Hf]|(Hnone & -> & Hp)]; simpl.
  - apply exists_file_true in Hf. by rewrite Hf.
  - apply exists_file_false in Hnone. apply exists_file_true in Hp.
    by rewrite Hnone, Hp.
Qed.

Lemma probe_Some ext moduleName roots file :
  probe fs ext moduleName roots = Some file →
  ∃ pre r post, roots = pre ++ r :: post
    ∧ (∀ r', r' ∈ pre → no_artifact fs ext moduleName r')
    ∧ offers fs ext moduleName r file.
Proof.
  induction roots as [|r roots IH]; [done|]. simpl.
  destruct (exists_file fs (module_file r ext moduleName)) eqn:Hf.
  { intros [= <-]. exists [], r, roots. split; [done|]. split.
    - by intros ? ?%elem_of_nil.
    - left. split; [done|]. by apply exists_file_true. }
  destruct (exists_file fs (package_init r ext moduleName)) eqn:Hp.
  { intros [= <-]. exists [], r, roots. split; [done|]. split.
    - by intros ? ?%elem_of_nil.
    - right. apply exists_file_false in Hf.
      repeat split; try done. by apply exists_file_true. }
  intros (pre & r0 & post & -> & Hpre & Hoff)%IH.
  exists (r :: pre), r0, post. split; [done|]. split; [|done].
  intros r' [->|Hr']%elem_of_cons; [|by apply Hpre].
  split; by apply exists_file_false.
Qed.

Lemma probe_None ext moduleName roots :
  probe fs ext moduleName roots = None ↔
  ∀ r, r ∈ roots → no_artifact fs ext moduleName r.
Proof.
  split.
  - induction roots as [|r roots IH]; [by intros _ ? ?%elem_of_nil|]. simpl.
    destruct (exists_file fs (module_file r ext moduleName)) eqn:Hf; [done|].
    destruct (exists_file fs (package_init r ext moduleName)) eqn:Hp; [done|].
    intros Hrest r' [->|Hr']%elem_of_cons; [|by apply IH].
    split; by apply exists_file_false.
  - intros Hall. rewrite <-(app_nil_r roots). by rewrite probe_skip.
Qed.

(** A located file exists. *)
Lemma locate_exists ext moduleName roots file :
  locate fs ext moduleName roots = inr file → is_Some (fs !! file).
Proof.
  unfold locate. destruct (probe _ _ _ _) as [f|] eqn:Hprobe; [|done].
  intros [= <-]. apply probe_Some in Hprobe as (_ & r & _ & _ & _ & Hoff).
  by destruct Hoff as [[_ ?]|(_ & _ & ?)].
Qed.


End locator.

(** ** One call of the resolver *)

Section one_call.

Context `{Parser} (fs : gmap string string).

Implicit Types (p : CompiledProgram) (m : Module) (decl : ImportDeclaration).

Lemma resolve_memoised fuel stack decl p m :
  modules p !! canonical_name decl = Some m → state m = Resolved →
  resolve fs (S fuel) stack decl p = Return m p.
Proof. intros Hm Hs. simpl. unfold getOrCreate. by rewrite Hm, Hs. Qed.

Lemma resolve_reentered fuel stack decl p m :
  modules p !! canonical_name decl = Some m → state m = Pending →
  resolve fs (S fuel) stack decl p =
  Raise (CircularImportError (cycle_of (canonical_name decl) stack)) p.
Proof. intros Hm Hs. simpl. unfold getOrCreate. by rewrite Hm, Hs. Qed.

(** A name that is neither resolved nor in progress is loaded. *)
Lemma resolve_start fuel stack decl p :
  unresolved p (canonical_name decl) →
  resolve fs (S fuel) stack decl p =
  load fs (resolve fs fuel (canonical_name decl :: stack)) decl
    (getOrCreate (canonical_name decl) p).1.1
    (getOrCreate (canonical_name decl) p).2.
Proof.
  intros Hun. simpl. unfold getOrCreate.
  destruct (modules p !! canonical_name decl) as [m|] eqn:Hm; [|done].
  by rewrite (Hun m Hm).
Qed.

Lemma load_not_found rec decl m p e :
  locate fs (fileExtension p) (decl_module decl) (searchRoots p) = inl e →
  load fs rec decl m p =
  Raise e (mark (canonical_name decl) Failed
             (mark (canonical_name decl) Pending p)).
Proof. intros Hloc. unfold load. simpl. by rewrite Hloc. Qed.

Lemma load_artifact rec decl m p file ast :
  artifact fs p decl file ast →
  load fs rec decl m p =
  match resolve_each rec (elements (top_level_imports ast))
          (log_parse (canonical_name decl)
             (mark (canonical_name decl) Pending p)) with
  | Return _ p' =>
      Return (populate m file ast)
        (set_modules (insert (canonical_name decl) (populate m file ast)) p')
  | Raise e p' => Raise e (mark (canonical_name decl) Failed p')
  | OutOfFuel => OutOfFuel
  end.
Proof.
  intros [Hloc Hparse]. unfold load. simpl. rewrite Hloc.
  destruct (fs !! file) as [source|]; [|done]. simpl in Hparse.
  by rewrite Hparse.
Qed.

(** Whatever a load returns is resolved, populated from an existing
    file, and registered under the name asked for. *)
Lemma load_Return rec decl m p m' p' :
  load fs rec decl m p = Return m' p' →
  ∃ file ast, artifact fs p decl file ast ∧ m' = populate m file ast
    ∧ modules p' !! canonical_name decl = Some m'.
Proof.
  unfold load. simpl.
  destruct (locate _ _ _ _) as [e|file] eqn:Hloc; [done|].
  destruct (fs !! file) as [source|] eqn:Hfile; [|done].
  destruct (parse source) as [ast|] eqn:Hparse; [|done].
  destruct (resolve_each _ _ _) as [[] p2|e p2|]; [|done..].
  intros [= <- <-]. exists file, ast. repeat split; try done.
  - by rewrite Hfile.
  - simpl. by rewrite lookup_insert_eq.
Qed.

End one_call.

(** ** The scenario of [tests/test_import.py] *)

Section scenario.

Context `{Parser} (fs : gmap string string).


End scenario.


(** ** A module that is nowhere on the search path *)

Section not_found.

Context `{Parser} (fs : gmap string string).

Implicit Types (p : CompiledProgram) (m : Module) (decl : ImportDeclaration).

Lemma locate_nowhere ext moduleName roots :
  (∀ r, r ∈ roots → no_artifact fs ext moduleName r) →
  locate fs ext moduleName roots =
  inl (ModuleNotFoundError (String.concat "." moduleName) roots).
Proof. intros Hall%probe_None. unfold locate. by rewrite Hall. Qed.

(** After [getOrCreate] the name is registered. *)
Lemma getOrCreate_lookup n p :
  modules (getOrCreate n p).2 !! n = Some (getOrCreate n p).1.1.
Proof.
  unfold getOrCreate. destruct (modules p !! n) eqn:Hn; simpl; [done|].
  by rewrite lookup_insert_eq.
Qed.

Lemma getOrCreate_other n p k :
  k ≠ n → modules (getOrCreate n p).2 !! k = modules p !! k.
Proof.
  intros Hk. unfold getOrCreate. destruct (modules p !! n); simpl; [done|].
  by rewrite lookup_insert_ne.
Qed.

Lemma getOrCreate_config n p :
  searchRoots (getOrCreate n p).2 = searchRoots p
  ∧ fileExtension (getOrCreate n p).2 = fileExtension p
  ∧ parse_log (getOrCreate n p).2 = parse_log p.
Proof. unfold getOrCreate. by destruct (modules p !! n). Qed.

Lemma mark_lookup n s p :
  modules (mark n s p) !! n = set_state s <$> modules p !! n.
Proof. unfold mark. simpl. by rewrite lookup_alter_eq. Qed.

Lemma mark_other n s p k :
  k ≠ n → modules (mark n s p) !! k = modules p !! k.
Proof. intros Hk. unfold mark. simpl. by rewrite lookup_alter_ne. Qed.


End not_found.



(** ** What every resolution preserves *)

Section frame_rule.

Context `{Parser} (fs : gmap string string).

Implicit Types (p q : CompiledProgram) (m : Module) (decl : ImportDeclaration).

Lemma extends_refl p : extends p p.
Proof.
  repeat split; try done. exists []. split; [done|].
  by intros ? ? _ _ ?%elem_of_nil.
Qed.

Lemma extends_trans p q r : extends p q → extends q r → extends p r.
Proof.
  intros (Hr1 & He1 & Hi1 & Hk1 & Hp1 & l1 & Hl1 & Hn1)
         (Hr2 & He2 & Hi2 & Hk2 & Hp2 & l2 & Hl2 & Hn2).
  split; [congruence|]. split; [congruence|]. split; [lia|].
  split; [by eauto|]. split; [by eauto|].
  exists (l2 ++ l1). split; [by rewrite Hl2, Hl1, (assoc_L (++))|].
  intros k m Hk Hs [?|?]%elem_of_app; [|by eapply Hn1].
  eapply Hn2; [by eapply Hk1|done..].
Qed.

Lemma continues_refl {A} (a : A) p : continues p (Return a p).
Proof. split; [apply extends_refl|done]. Qed.

(** The walk over the imports of a module. *)
Lemma resolve_each_continues rec decls p :
  (∀ d q, continues q (rec d q)) → continues p (resolve_each rec decls p).
Proof.
  intros Hrec. revert p. induction decls as [|d decls IH]; intros p; simpl.
  { apply (continues_refl ()). }
  specialize (Hrec d p). destruct (rec d p) as [m q|e q|]; [|done..].
  destruct Hrec as [Hext Hwf]. specialize (IH q).
  destruct (resolve_each rec decls q) as [[] r|e r|]; [| |done].
  - destruct IH as [Hext' Hwf']. split; [by eapply extends_trans|auto].
  - destruct IH as [Hext' Hwf']. split; [by eapply extends_trans|auto].
Qed.

(** Well-formedness under the updates of the registry. *)
Lemma registry_wf_update (f : Module → Module) n p :
  (∀ m, name (f m) = name m ∧ mod_id (f m) = mod_id m) →
  registry_wf p → registry_wf (set_modules (alter f n) p).
Proof.
  intros Hf [Hname Hid]. split.
  - intros k m. cbn [set_modules modules next_id].
    destruct (decide (k = n)) as [->|Hk].
    + rewrite lookup_alter_eq. destruct (modules p !! n) as [m0|] eqn:Hm0;
        [|done]. intros [= <-]. destruct (Hf m0) as [-> ->]. by apply Hname.
    + rewrite lookup_alter_ne by done. apply Hname.
  - intros k1 k2 m1 m2. cbn [set_modules modules].
    assert (∀ k m, alter f n (modules p) !! k = Some m →
              ∃ m0, modules p !! k = Some m0 ∧ mod_id m = mod_id m0) as Hback.
    { intros k m. destruct (decide (k = n)) as [->|Hk].
      - rewrite lookup_alter_eq. destruct (modules p !! n) as [m0|]; [|done].
        intros [= <-]. exists m0. split; [done|]. by destruct (Hf m0).
      - rewrite lookup_alter_ne by done. by exists m. }
    intros (m01 & H1 & ->)%Hback (m02 & H2 & ->)%Hback. by apply Hid.
Qed.

Lemma registry_wf_mark n s p : registry_wf p → registry_wf (mark n s p).
Proof. by apply registry_wf_update. Qed.

Lemma registry_wf_log n p : registry_wf p → registry_wf (log_parse n p).
Proof. done. Qed.

Lemma registry_wf_getOrCreate n p :
  registry_wf p → registry_wf (getOrCreate n p).2.
Proof.
  intros [Hname Hid]. unfold getOrCreate.
  destruct (modules p !! n) as [m|] eqn:Hn; [done|]. split.
  - intros k m. cbn [modules next_id snd].
    destruct (decide (k = n)) as [->|Hk].
    + rewrite lookup_insert_eq. intros [= <-]. simpl. split; [done|lia].
    + rewrite lookup_insert_ne by done. intros Hm.
      destruct (Hname _ _ Hm). split; [done|lia].
  - intros k1 k2 m1 m2. cbn [modules snd].
    destruct (decide (k1 = n)) as [->|Hk1], (decide (k2 = n)) as [->|Hk2];
      rewrite ?lookup_insert_eq, ?lookup_insert_ne by done; try done.
    + intros [= <-] Hm2. simpl. destruct (Hname _ _ Hm2). lia.
    + intros Hm1 [= <-]. simpl. destruct (Hname _ _ Hm1). lia.
    + apply Hid.
Qed.

(** Populating the module registered as [n] keeps the registry well
    formed. *)
Lemma registry_wf_populate n m0 m p :
  registry_wf p → modules p !! n = Some m0 →
  name m = name m0 → mod_id m = mod_id m0 →
  registry_wf (set_modules (insert n m) p).
Proof.
  intros Hwf Hm0 Hname Hid.
  replace (set_modules (insert n m) p)
    with (set_modules (alter (λ _, m) n) p).
  - destruct Hwf as [Hn Hi]. split.
    + intros k m'. cbn [set_modules modules next_id].
      destruct (decide (k = n)) as [->|Hk].
      * rewrite lookup_alter_eq, Hm0. intros [= <-].
        rewrite Hname, Hid. by apply Hn.
      * rewrite lookup_alter_ne by done. apply Hn.
    + intros k1 k2 m1 m2. cbn [set_modules modules].
      assert (∀ k m', alter (λ _, m) n (modules p) !! k = Some m' →
                ∃ m1, modules p !! k = Some m1 ∧ mod_id m' = mod_id m1)
        as Hback.
      { intros k m'. destruct (decide (k = n)) as [->|Hk].
        - rewrite lookup_alter_eq, Hm0. intros [= <-]. by exists m0.
        - rewrite lookup_alter_ne by done. by exists m'. }
      intros (m01 & H1 & ->)%Hback (m02 & H2 & ->)%Hback. by apply Hi.
  - unfold set_modules. f_equal. apply map_eq. intros k.
    destruct (decide (k = n)) as [->|Hk].
    + by rewrite lookup_alter_eq, lookup_insert_eq, Hm0.
    + by rewrite lookup_alter_ne, lookup_insert_ne.
Qed.

(** *** Loading one module *)

Lemma extends_extends_except n p q : extends p q → extends_except n p q.
Proof.
  intros (Hr & He & Hi & Hk & Hp & l & Hl & Hn).
  repeat split; try done; eauto.
Qed.

Lemma extends_except_trans n p q r :
  extends_except n p q → extends_except n q r → extends_except n p r.
Proof.
  intros (Hr1 & He1 & Hi1 & Hk1 & Hp1 & l1 & Hl1 & Hn1)
         (Hr2 & He2 & Hi2 & Hk2 & Hp2 & l2 & Hl2 & Hn2).
  split; [congruence|]. split; [congruence|]. split; [lia|].
  split; [by eauto|]. split; [by eauto|].
  exists (l2 ++ l1). split; [by rewrite Hl2, Hl1, (assoc_L (++))|].
  intros k m Hne Hk Hs [?|?]%elem_of_app; [|by eapply Hn1].
  eapply Hn2; [done|by eapply Hk1|done..].
Qed.

(** Steps that only touch the entry of [n]. *)
Lemma extends_except_entry n p q l :
  searchRoots q = searchRoots p → fileExtension q = fileExtension p →
  next_id p ≤ next_id q →
  (∀ k, k ≠ n → modules q !! k = modules p !! k) →
  parse_log q = l ++ parse_log p → (∀ k, k ∈ l → k = n) →
  extends_except n p q.
Proof.
  intros Hr He Hi Hk Hl Hn. repeat split; try done.
  - intros k m Hne. by rewrite Hk.
  - intros k m Hne. by rewrite Hk.
  - exists l. split; [done|]. intros k m Hne _ _ Hin. by apply Hne, Hn.
Qed.

Lemma getOrCreate_except n p : extends_except n p (getOrCreate n p).2.
Proof.
  destruct (getOrCreate_config n p) as (Hr & He & Hl).
  apply (extends_except_entry _ _ _ []); try done.
  - unfold getOrCreate. destruct (modules p !! n); simpl; lia.
  - intros k Hk. by apply (getOrCreate_other).
  - by intros k ?%elem_of_nil.
Qed.

Lemma mark_except n s p : extends_except n p (mark n s p).
Proof.
  apply (extends_except_entry _ _ _ []); try done.
  - intros k Hk. by apply (mark_other).
  - by intros k ?%elem_of_nil.
Qed.

Lemma log_parse_except n p : extends_except n p (log_parse n p).
Proof.
  apply (extends_except_entry _ _ _ [n]); try done.
  by intros k ?%list_elem_of_singleton.
Qed.

Lemma populate_except n m p : extends_except n p (set_modules (insert n m) p).
Proof.
  apply (extends_except_entry _ _ _ []); try done.
  - intros k Hk. cbn [set_modules modules]. by rewrite lookup_insert_ne.
  - by intros k ?%elem_of_nil.
Qed.

(** When [n] was not resolved before and is not left in progress, the
    exception is void. *)
Lemma extends_except_close n p q :
  extends_except n p q → unresolved p n →
  (∀ m, modules q !! n = Some m → state m ≠ Pending) →
  extends p q.
Proof.
  intros (Hr & He & Hi & Hk & Hp & l & Hl & Hn) Hun Hq.
  repeat split; try done.
  - intros k m Hm Hs. destruct (decide (k = n)) as [->|Hne]; [|by eauto].
    by rewrite (Hun _ Hm) in Hs.
  - intros k m Hm Hs. destruct (decide (k = n)) as [->|Hne]; [|by eauto].
    by destruct (Hq _ Hm).
  - exists l. split; [done|]. intros k m Hm Hs.
    destruct (decide (k = n)) as [->|Hne]; [|by eauto].
    by rewrite (Hun _ Hm) in Hs.
Qed.

Lemma load_continues rec decl p :
  (∀ d q, continues q (rec d q)) →
  unresolved p (canonical_name decl) →
  continues p
    (load fs rec decl (getOrCreate (canonical_name decl) p).1.1
       (getOrCreate (canonical_name decl) p).2).
Proof.
  intros Hrec Hun. set (n := canonical_name decl).
  pose proof (getOrCreate_lookup n p) as Hq.
  pose proof (getOrCreate_except n p) as Hpq.
  pose proof (registry_wf_getOrCreate n p) as Hwfq.
  set (q := (getOrCreate n p).2) in *. set (m := (getOrCreate n p).1.1) in *.
  set (q1 := mark n Pending q).
  assert (extends_except n p q1) as Hq1.
  { eapply extends_except_trans; [done|]. apply mark_except. }
  assert (modules q1 !! n = Some (set_state Pending m)) as Hn1.
  { unfold q1. by rewrite (mark_lookup), Hq. }
  assert (∀ e X, extends_except n p X → (registry_wf p → registry_wf X) →
            continues (A := Module) p (Raise e (mark n Failed X))) as Hfail.
  { intros e X HX Hwf. split.
    - eapply extends_except_close; [|done|].
      + eapply extends_except_trans; [done|]. apply mark_except.
      + intros m'. rewrite (mark_lookup).
        destruct (modules X !! n); [|done]. by intros [= <-].
    - intros Hp. by apply registry_wf_mark, Hwf. }
  assert (registry_wf p → registry_wf q1) as Hwf1.
  { intros Hp. by apply registry_wf_mark, Hwfq. }
  unfold load. fold n. fold q1.
  destruct (locate fs _ _ _) as [e|file]; [by apply Hfail|].
  destruct (fs !! file) as [source|]; [|by apply Hfail].
  set (q2 := log_parse n q1).
  assert (extends_except n p q2) as Hq2.
  { eapply extends_except_trans; [done|]. apply log_parse_except. }
  destruct (parse source) as [ast|]; [|by apply Hfail].
  pose proof (resolve_each_continues rec
                (elements (top_level_imports ast)) q2 Hrec) as Heach.
  destruct (resolve_each rec _ q2) as [[] q3|e q3|]; [| |done].
  - destruct Heach as [Hext Hwf3].
    assert (modules q3 !! n = Some (set_state Pending m)) as Hn3.
    { destruct Hext as (_ & _ & _ & Hk & _). by apply Hk. }
    split.
    + eapply extends_except_close; [|done|].
      * eapply extends_except_trans; [done|].
        eapply extends_except_trans;
          [by apply extends_extends_except|apply populate_except].
      * intros m'. cbn [set_modules modules]. rewrite lookup_insert_eq.
        by intros [= <-].
    + intros Hp. eapply registry_wf_populate; [|done|done..].
      by apply Hwf3, registry_wf_log, Hwf1.
  - destruct Heach as [Hext Hwf3]. apply Hfail.
    + eapply extends_except_trans; [done|]. by apply extends_extends_except.
    + intros Hp. by apply Hwf3, registry_wf_log, Hwf1.
Qed.

(** Every call of the resolver leaves a later state of the program, with
    a well-formed registry. *)
Lemma resolve_continues fuel stack decl p :
  continues p (resolve fs fuel stack decl p).
Proof.
  revert stack decl p. induction fuel as [|fuel IH]; intros stack decl p;
    [done|].
  destruct (modules p !! canonical_name decl) as [m|] eqn:Hm.
  - destruct (state m) eqn:Hs.
    + erewrite resolve_reentered by done. apply (continues_refl m).
    + erewrite resolve_memoised by done. apply continues_refl.
    + assert (unresolved p (canonical_name decl)) as Hun.
      { intros m' Hm'. congruence. }
      rewrite resolve_start by done.
      apply load_continues; [|done]. intros d q. apply IH.
  - assert (unresolved p (canonical_name decl)) as Hun.
    { intros m' Hm'. congruence. }
    rewrite resolve_start by done.
    apply load_continues; [|done]. intros d q. apply IH.
Qed.

End frame_rule.

(** ** Memoization *)

Section memoization.

Context `{Parser} (fs : gmap string string).

Implicit Types (p q : CompiledProgram) (m : Module) (decl : ImportDeclaration).

Lemma parse_count_app p q l n :
  parse_log q = l ++ parse_log p → n ∉ l → parse_count q n = parse_count p n.
Proof.
  intros Hl Hn. unfold parse_count. rewrite Hl, filter_app, length_app.
  assert (filter (λ k, k = n) l = []) as ->; [|done].
  apply elem_of_nil_inv. by intros k [-> ?]%list_elem_of_filter.
Qed.

(** A load that returns has parsed the module once, and nothing under it
    has parsed it again. *)
Lemma load_Return_parsed rec decl m p m' p' :
  (∀ d q, continues q (rec d q)) →
  load fs rec decl m p = Return m' p' →
  is_Some (modules p !! canonical_name decl) →
  parse_count p' (canonical_name decl) = S (parse_count p (canonical_name decl)).
Proof.
  intros Hrec Hload [m0 Hm0]. revert Hload. unfold load.
  set (n := canonical_name decl) in *. set (q1 := mark n Pending p).
  destruct (locate fs _ _ _) as [e|file]; [done|].
  destruct (fs !! file) as [source|]; [|done].
  destruct (parse source) as [ast|]; [|done].
  pose proof (resolve_each_continues rec
                (elements (top_level_imports ast)) (log_parse n q1) Hrec)
    as Heach.
  destruct (resolve_each rec _ _) as [[] q3|e q3|]; [|done..].
  intros [= _ <-]. destruct Heach as [(_ & _ & _ & _ & _ & l & Hl & Hn) _].
  assert (parse_count (log_parse n q1) n = S (parse_count p n)) as <-.
  { unfold parse_count. cbn [log_parse parse_log mark set_modules].
    by rewrite filter_cons_True. }
  apply (parse_count_app _ _ l); [done|].
  apply (Hn n (set_state Pending m0)); [|done].
  cbn [log_parse modules]. unfold q1. by rewrite mark_lookup, Hm0.
Qed.

Lemma resolveEntry_wf roots ext sourceText p :
  resolveEntry roots ext sourceText = Some p → registry_wf p.
Proof.
  unfold resolveEntry. destruct (parse sourceText) as [ast|]; [|done].
  intros [= <-]. split; cbn [modules next_id].
  - intros k m [<- <-]%lookup_singleton_Some. simpl. split; [done|lia].
  - by intros k1 k2 m1 m2 [<- _]%lookup_singleton_Some
      [<- _]%lookup_singleton_Some.
Qed.

(** In a well-formed registry a name has one module object. *)
Lemma registry_wf_unique p k1 k2 m1 m2 :
  registry_wf p →
  modules p !! k1 = Some m1 → modules p !! k2 = Some m2 →
  name m1 = name m2 → k1 = k2 ∧ m1 = m2.
Proof.
  intros [Hname _] H1 H2 Heq.
  destruct (Hname _ _ H1) as [<- _]. destruct (Hname _ _ H2) as [<- _].
  split; [done|]. rewrite Heq in H1. congruence.
Qed.


End memoization.


(** ** Import cycles *)

Section cycles.

Context `{Parser} (fs : gmap string string).

Implicit Types (p q : CompiledProgram) (m : Module) (decl : ImportDeclaration).

(** A walk in which every import is either resolved already or raises
    [e], and one does raise, raises [e]. *)
Lemma resolve_each_raises rec decls p e p' d0 :
  d0 ∈ decls →
  rec d0 p = Raise e p' →
  (∀ d, d ∈ decls → d ≠ d0 → ∃ m, rec d p = Return m p) →
  resolve_each rec decls p = Raise e p'.
Proof.
  induction decls as [|d decls IH]; intros Hin Hraise Hothers.
  { by apply elem_of_nil in Hin. }
  simpl. destruct (decide (d = d0)) as [->|Hne].
  { by rewrite Hraise. }
  destruct (Hothers d) as [m ->]; [by left|done|].
  apply IH; [|done|].
  - by apply elem_of_cons in Hin as [->|?].
  - intros d' Hd'. apply Hothers. by right.
Qed.

Lemma artifact_config p q decl file ast :
  searchRoots q = searchRoots p → fileExtension q = fileExtension p →
  artifact fs p decl file ast → artifact fs q decl file ast.
Proof. unfold artifact. by intros -> ->. Qed.

Lemma loading_config decl p :
  searchRoots (loading decl p) = searchRoots p
  ∧ fileExtension (loading decl p) = fileExtension p.
Proof.
  destruct (getOrCreate_config (canonical_name decl) p) as (Hr & He & _).
  by split.
Qed.

Lemma loading_pending decl p :
  ∃ m, modules (loading decl p) !! canonical_name decl = Some m
       ∧ state m = Pending.
Proof.
  eexists. unfold loading. cbn [log_parse modules].
  by rewrite mark_lookup, getOrCreate_lookup.
Qed.

Lemma loading_other decl p k :
  k ≠ canonical_name decl → modules (loading decl p) !! k = modules p !! k.
Proof.
  intros Hk. unfold loading. cbn [log_parse modules].
  by rewrite mark_other, getOrCreate_other.
Qed.

Lemma loading_resolved decl p k :
  unresolved p (canonical_name decl) → resolved p k →
  resolved (loading decl p) k.
Proof.
  intros Hun (m & Hm & Hs). exists m. split; [|done].
  rewrite loading_other; [done|]. intros ->.
  by rewrite (Hun _ Hm) in Hs.
Qed.

Lemma loading_unresolved decl p k :
  k ≠ canonical_name decl → unresolved p k → unresolved (loading decl p) k.
Proof. intros Hk Hun m. rewrite loading_other by done. apply Hun. Qed.

(** Loading a module whose artifact is there walks its imports. *)
Lemma resolve_loading fuel stack decl p file ast :
  unresolved p (canonical_name decl) → artifact fs p decl file ast →
  resolve fs (S fuel) stack decl p =
  match resolve_each (resolve fs fuel (canonical_name decl :: stack))
          (elements (top_level_imports ast)) (loading decl p) with
  | Return _ p' =>
      Return (populate (getOrCreate (canonical_name decl) p).1.1 file ast)
        (set_modules
           (insert (canonical_name decl)
              (populate (getOrCreate (canonical_name decl) p).1.1 file ast))
           p')
  | Raise e p' => Raise e (mark (canonical_name decl) Failed p')
  | OutOfFuel => OutOfFuel
  end.
Proof.
  intros Hun Hart. rewrite resolve_start by done.
  erewrite load_artifact; [done|].
  destruct (getOrCreate_config (canonical_name decl) p) as (Hr & He & _).
  by eapply artifact_config.
Qed.

Lemma cycle_of_self a : cycle_of a [a] = [a; a].
Proof. unfold cycle_of. simpl. by rewrite decide_True. Qed.

Lemma cycle_of_pair a b : a ≠ b → cycle_of a [b; a] = [a; b; a].
Proof.
  intros Hne. unfold cycle_of. simpl.
  rewrite decide_False by done. by rewrite decide_True.
Qed.

(** A walk that meets a name in progress, all else being resolved. *)
Lemma resolve_each_reenters fuel stack ast d0 q :
  d0 ∈ top_level_imports ast →
  (∃ m, modules q !! canonical_name d0 = Some m ∧ state m = Pending) →
  (∀ d, d ∈ top_level_imports ast → d ≠ d0 → resolved q (canonical_name d)) →
  resolve_each (resolve fs (S fuel) stack) (elements (top_level_imports ast)) q
  = Raise (CircularImportError (cycle_of (canonical_name d0) stack)) q.
Proof.
  intros Hin (m & Hm & Hs) Hothers.
  apply (resolve_each_raises _ _ _ _ _ d0).
  - by apply elem_of_elements.
  - by eapply resolve_reentered.
  - intros d Hd%elem_of_elements Hne.
    destruct (Hothers d Hd Hne) as (md & Hmd & Hsd).
    exists md. by apply resolve_memoised.
Qed.

(** *** The depth of the call chain is bounded *)

Lemma elem_of_pending p k :
  k ∈ pending p ↔ ∃ m, modules p !! k = Some m ∧ state m = Pending.
Proof.
  unfold pending. rewrite elem_of_dom. split.
  - intros [m [Hm Hs]%map_lookup_filter_Some]. by exists m.
  - intros (m & Hm & Hs). exists m. by apply map_lookup_filter_Some.
Qed.

Lemma extends_pending p q : extends p q → pending q = pending p.
Proof.
  intros (_ & _ & _ & Hk & Hp & _). apply set_eq. intros k.
  rewrite !elem_of_pending. split.
  - intros (m & Hm & Hs). exists m. split; [|done]. by apply Hp.
  - intros (m & Hm & Hs). exists m. split; [|done]. apply Hk; [done|].
    by rewrite Hs.
Qed.

Lemma pending_loading decl p :
  unresolved p (canonical_name decl) →
  pending (loading decl p) = {[canonical_name decl]} ∪ pending p.
Proof.
  intros Hun. apply set_eq. intros k.
  rewrite elem_of_union, elem_of_singleton, !elem_of_pending.
  destruct (decide (k = canonical_name decl)) as [->|Hk].
  - split; [by left|]. intros _. apply loading_pending.
  - rewrite loading_other by done. split; [by right|].
    by intros [?|?].
Qed.

Lemma imported_names_closed file source ast d :
  fs !! file = Some source → parse source = Some ast →
  d ∈ top_level_imports ast → canonical_name d ∈ imported_names fs.
Proof.
  intros Hfile Hparse Hd. unfold imported_names.
  apply elem_of_union_list. exists (names_imported_by source). split.
  - apply list_elem_of_fmap. exists (file, source). split; [done|].
    by apply elem_of_map_to_list.
  - unfold names_imported_by. rewrite Hparse. by apply elem_of_map_2.
Qed.

Lemma resolve_each_terminates rec decls p :
  (∀ d q, continues q (rec d q)) →
  (∀ d q, d ∈ decls → extends p q → rec d q ≠ OutOfFuel) →
  resolve_each rec decls p ≠ OutOfFuel.
Proof.
  intros Hrec. revert p. induction decls as [|d decls IH]; intros p Hterm;
    [done|].
  simpl. pose proof (Hrec d p) as Hc.
  pose proof (Hterm d p (list_elem_of_here _ _) (extends_refl p)) as Hd.
  destruct (rec d p) as [m q|e q|]; [|done..].
  destruct Hc as [Hext _]. apply IH. intros d' q' Hd' Hq'.
  apply Hterm; [by right|by eapply extends_trans].
Qed.

Lemma resolve_start_terminates (X : gset string) fuel stack decl p :
  (∀ stack decl p, canonical_name decl ∈ X →
     size (X ∖ pending p) < fuel → resolve fs fuel stack decl p ≠ OutOfFuel) →
  unresolved p (canonical_name decl) →
  imported_names fs ⊆ X → canonical_name decl ∈ X →
  size (X ∖ pending p) < S fuel →
  resolve fs (S fuel) stack decl p ≠ OutOfFuel.
Proof.
  intros IH Hun HX Hdecl Hsize. rewrite resolve_start by done.
  unfold load. set (n := canonical_name decl) in *.
  destruct (locate fs _ _ _) as [e|file]; [done|].
  destruct (fs !! file) as [source|] eqn:Hfile; [|done].
  destruct (parse source) as [ast|] eqn:Hparse; [|done].
  change (log_parse n (mark n Pending (getOrCreate n p).2))
    with (loading decl p).
  assert (resolve_each (resolve fs fuel (n :: stack))
            (elements (top_level_imports ast)) (loading decl p) ≠ OutOfFuel)
    as Heach.
  { apply resolve_each_terminates.
    - intros d q. apply resolve_continues.
    - intros d q Hd%elem_of_elements Hq. apply IH.
      + apply HX. by eapply imported_names_closed.
      + rewrite (extends_pending _ _ Hq), pending_loading by done.
        assert (n ∉ pending p) as Hn.
        { intros (m & Hm & Hs)%elem_of_pending. by rewrite (Hun m Hm) in Hs. }
        assert (X ∖ ({[n]} ∪ pending p) ⊂ X ∖ pending p) as Hsub;
          [|apply subset_size in Hsub; unfold n in *; lia].
        split.
        * intros k [Hk Hnk]%elem_of_difference. apply elem_of_difference.
          split; [done|]. intros Hkp. apply Hnk, elem_of_union. by right.
        * intros Hsup.
          assert (n ∈ X ∖ pending p) as Hin by (by apply elem_of_difference).
          apply Hsup, elem_of_difference in Hin as [_ Hnot].
          apply Hnot, elem_of_union. left. by apply elem_of_singleton. }
  by destruct (resolve_each _ _ _).
Qed.

(** With more fuel than names that can still enter the chain, a
    resolution ends. *)
Lemma resolve_terminates (X : gset string) fuel stack decl p :
  imported_names fs ⊆ X → canonical_name decl ∈ X →
  size (X ∖ pending p) < fuel →
  resolve fs fuel stack decl p ≠ OutOfFuel.
Proof.
  intros HX. revert stack decl p.
  induction fuel as [|fuel IH]; intros stack decl p Hdecl Hsize; [lia|].
  destruct (modules p !! canonical_name decl) as [m|] eqn:Hm.
  - destruct (state m) eqn:Hs.
    + by erewrite resolve_reentered.
    + by erewrite resolve_memoised.
    + apply (resolve_start_terminates X); [done| |done..].
      intros m' Hm'. congruence.
  - apply (resolve_start_terminates X); [done| |done..].
    intros m' Hm'. congruence.
Qed.

Lemma resolve_each_Return rec decls p q d :
  (∀ d q, continues q (rec d q)) →
  resolve_each rec decls p = Return () q → d ∈ decls →
  ∃ q0 m q1, extends p q0 ∧ rec d q0 = Return m q1.
Proof.
  intros Hrec. revert p. induction decls as [|d' decls IH]; intros p Heach Hd.
  { by apply elem_of_nil in Hd. }
  simpl in Heach. pose proof (Hrec d' p) as Hc.
  destruct (rec d' p) as [m q'|e q'|] eqn:Hd'; [|done..].
  apply elem_of_cons in Hd as [->|Hd].
  - exists p, m, q'. split; [apply extends_refl|done].
  - destruct (IH q' Heach Hd) as (q0 & m0 & q1 & Hext & Hq0).
    exists q0, m0, q1. split; [|done]. destruct Hc.
    by eapply extends_trans.
Qed.

(** A module that imports itself is never returned, whatever else it
    imports. *)
Lemma self_import_never_returns fuel stack da p file ast d0 m' p' :
  unresolved p (canonical_name da) → artifact fs p da file ast →
  d0 ∈ top_level_imports ast → canonical_name d0 = canonical_name da →
  resolve fs fuel stack da p ≠ Return m' p'.
Proof.
  intros Hun Hart Hd0 Hname. destruct fuel as [|fuel]; [done|].
  erewrite resolve_loading by done.
  destruct (resolve_each _ _ _) as [[] q|e q|] eqn:Heach; [|done..].
  apply (resolve_each_Return _ _ _ _ d0) in Heach
    as (q0 & m0 & q1 & Hext & Hq0).
  - destruct (loading_pending da p) as (m & Hm & Hs).
    destruct Hext as (_ & _ & _ & Hk & _).
    assert (modules q0 !! canonical_name d0 = Some m) as Hm0.
    { rewrite Hname. apply Hk; [done|]. by rewrite Hs. }
    destruct fuel as [|fuel]; [done|].
    by erewrite resolve_reentered in Hq0.
  - intros d q'. apply resolve_continues.
  - by apply elem_of_elements.
Qed.


End cycles.



(** * More about the generator *)

(** ** The output, line by line *)

Section output.

Lemma one_line_dunder_lines d :
  one_line d = true → Forall (λ p, one_line p = true) (dunder_lines d).
Proof.
  intros Hd. unfold dunder_lines.
  case_decide; repeat constructor; by rewrite !one_line_app, Hd.
Qed.

Lemma one_line_ctype_lines c :
  one_line c = true → Forall (λ p, one_line p = true) (ctype_lines c).
Proof.
  intros Hc. unfold ctype_lines.
  repeat constructor; by rewrite !one_line_app, Hc.
Qed.

Lemma lines_of_main bs ds cs :
  Forall (λ b, one_line b = true) bs → Forall (λ d, one_line d = true) ds →
  Forall (λ c, one_line c = true) cs →
  lines (main bs ds cs) =
  [header; ""] ++ bs ++ (ds ≫= dunder_lines) ++ (cs ≫= ctype_lines)
  ++ [value_line].
Proof.
  intros Hb Hd Hc. rewrite main_text. apply lines_text.
  rewrite !Forall_app. repeat split.
  - by repeat constructor.
  - done.
  - apply Forall_bind. eapply Forall_impl; [done|].
    apply one_line_dunder_lines.
  - apply Forall_bind. eapply Forall_impl; [done|].
    apply one_line_ctype_lines.
  - by repeat constructor.
Qed.

(** X1 — When no table entry holds a line feed, the output is, line by
    line and in this order: the header, an empty line, the names of the
    builtins as they are iterated, for each special method its line and
    (but for [eq]) the line of its reflected counterpart, for each foreign
    type the line of its alias and that of the pointer alias, and the line
    of [__value]. *)
Theorem output_lines bs ds cs :
  Forall (λ b, one_line b = true) bs → Forall (λ d, one_line d = true) ds →
  Forall (λ c, one_line c = true) cs →
  lines (main bs ds cs) =
  [header; ""] ++ bs ++ (ds ≫= dunder_lines) ++ (cs ≫= ctype_lines)
  ++ [value_line].
Proof. apply lines_of_main. Qed.

Lemma output_lines_witness :
  lines (main ["id"] ["eq"; "ne"] ["int"]) =
  [header; ""] ++ ["id"] ++ (["eq"; "ne"] ≫= dunder_lines)
  ++ (["int"] ≫= ctype_lines) ++ [value_line].
Proof. apply (output_lines ["id"] ["eq"; "ne"] ["int"]); by_compute. Defined.

Lemma length_bind_dunder_lines ds :
  length (ds ≫= dunder_lines) + length (filter (λ d, d = "eq") ds)
  = 2 * length ds.
Proof.
  induction ds as [|d ds IH]; [done|].
  rewrite bind_cons, length_app. unfold dunder_lines at 1.
  destruct (decide (d = "eq")) as [->|Hne].
  - rewrite filter_cons_True by done. simpl. lia.
  - rewrite filter_cons_False, decide_True by done. simpl. lia.
Qed.

Lemma length_bind_ctype_lines cs : length (cs ≫= ctype_lines) = 2 * length cs.
Proof.
  induction cs as [|c cs IH]; [done|].
  rewrite bind_cons, length_app, IH. simpl. lia.
Qed.

(** X2 — The number of lines of the output: three (header, empty line,
    [__value]), one per builtin, two per special method but one for [eq],
    two per foreign type. *)
Theorem output_line_count bs ds cs :
  Forall (λ b, one_line b = true) bs → Forall (λ d, one_line d = true) ds →
  Forall (λ c, one_line c = true) cs →
  length (lines (main bs ds cs)) + length (filter (λ d, d = "eq") ds)
  = 3 + length bs + 2 * length ds + 2 * length cs.
Proof.
  intros Hb Hd Hc. rewrite lines_of_main by done.
  rewrite !length_app, length_bind_ctype_lines.
  pose proof (length_bind_dunder_lines ds). simpl. lia.
Qed.

Lemma output_line_count_witness :
  length (lines (main BUILTINS DUNDERS CTYPES))
  + length (filter (λ d, d = "eq") DUNDERS)
  = 3 + length BUILTINS + 2 * length DUNDERS + 2 * length CTYPES.
Proof. apply (output_line_count BUILTINS DUNDERS CTYPES); by_compute. Defined.

(** X3 — Whatever the tables hold, the header is followed by one empty
    line: the header literal ends in a line feed and [print] adds its
    own. *)
Theorem header_then_empty_line bs ds cs :
  take 2 (lines (main bs ds cs)) = [header; ""]
  ∧ 3 ≤ length (lines (main bs ds cs)).
Proof.
  rewrite main_text, lines_text_app.
  rewrite (lines_text [header; ""]) by by_compute. split; [done|].
  rewrite !(assoc_L (++)), lines_text_app, !length_app.
  rewrite (lines_text [value_line]) by by_compute. simpl. lia.
Qed.

End output.

(** ** What the listing holds, and where *)

Section layout.

(** X4 — In every run, no identifier is listed twice and no line is
    printed twice. *)
Theorem listing_without_duplicates bs ds cs :
  run bs ds cs →
  NoDup (names (main bs ds cs)) ∧ NoDup (lines (main bs ds cs)).
Proof.
  intros Hrun.
  rewrite (names_run_Permutation _ _ _ Hrun),
    (lines_run_Permutation _ _ _ Hrun).
  split; by_compute.
Qed.

Lemma listing_without_duplicates_witness :
  NoDup (names (main (reverse BUILTINS) (reverse DUNDERS) (reverse CTYPES)))
  ∧ NoDup (lines (main (reverse BUILTINS) (reverse DUNDERS) (reverse CTYPES))).
Proof.
  apply (listing_without_duplicates
           (reverse BUILTINS) (reverse DUNDERS) (reverse CTYPES)).
  repeat split; apply reverse_Permutation.
Defined.

Lemma bind_elem_split {A B} (f : A → list B) (l : list A) (x : A) :
  x ∈ l → ∃ l1 l2, l ≫= f = l1 ++ f x ++ l2.
Proof.
  intros (k1 & k2 & ->)%list_elem_of_split.
  exists (k1 ≫= f), (k2 ≫= f). by rewrite bind_app, bind_cons.
Qed.

Lemma lines_around_entry bs ds cs (block : list string) :
  Forall (λ b, one_line b = true) bs → Forall (λ d, one_line d = true) ds →
  Forall (λ c, one_line c = true) cs →
  (∃ l1 l2, ds ≫= dunder_lines = l1 ++ block ++ l2)
  ∨ (∃ l1 l2, cs ≫= ctype_lines = l1 ++ block ++ l2) →
  ∃ l1 l2, lines (main bs ds cs) = l1 ++ block ++ l2.
Proof.
  intros Hb Hd Hc Hblock. rewrite lines_of_main by done.
  destruct Hblock as [(l1 & l2 & ->)|(l1 & l2 & ->)].
  - exists ([header; ""] ++ bs ++ l1),
      (l2 ++ (cs ≫= ctype_lines) ++ [value_line]).
    by rewrite <-!(assoc_L (++)).
  - exists ([header; ""] ++ bs ++ (ds ≫= dunder_lines) ++ l1),
      (l2 ++ [value_line]).
    by rewrite <-!(assoc_L (++)).
Qed.

(** X5 — The two lines of a pair are printed one right after the other:
    the reflected name of a special method (other than [eq]) follows its
    name, and the pointer alias of a foreign type follows its alias. *)
Theorem pairs_are_adjacent bs ds cs :
  Forall (λ b, one_line b = true) bs → Forall (λ d, one_line d = true) ds →
  Forall (λ c, one_line c = true) cs →
  (∀ d, d ∈ ds → d ≠ "eq" →
     ∃ l1 l2, lines (main bs ds cs) =
       l1 ++ ["__" +:+ d +:+ "__" +:+ ignore; "__r" +:+ d +:+ "__" +:+ ignore]
          ++ l2)
  ∧ (∀ c, c ∈ cs →
       ∃ l1 l2, lines (main bs ds cs) =
         l1 ++ ["c_" +:+ c +:+ ignore; "c_" +:+ c +:+ "_p # type: ignore"]
            ++ l2).
Proof.
  intros Hb Hd Hc. split.
  - intros d Hin Hne. apply lines_around_entry; try done. left.
    destruct (bind_elem_split dunder_lines ds d Hin) as (l1 & l2 & Hsplit).
    exists l1, l2. rewrite Hsplit. unfold dunder_lines.
    by rewrite decide_True.
  - intros c Hin. apply lines_around_entry; try done. right.
    by apply (bind_elem_split ctype_lines).
Qed.

Lemma pairs_are_adjacent_witness :
  (∀ d, d ∈ DUNDERS → d ≠ "eq" →
     ∃ l1 l2, lines (main BUILTINS DUNDERS CTYPES) =
       l1 ++ ["__" +:+ d +:+ "__" +:+ ignore; "__r" +:+ d +:+ "__" +:+ ignore]
          ++ l2)
  ∧ (∀ c, c ∈ CTYPES →
       ∃ l1 l2, lines (main BUILTINS DUNDERS CTYPES) =
         l1 ++ ["c_" +:+ c +:+ ignore; "c_" +:+ c +:+ "_p # type: ignore"]
            ++ l2).
Proof. apply (pairs_are_adjacent BUILTINS DUNDERS CTYPES); by_compute. Defined.

Lemma rev_app_acc (s acc : string) :
  String.rev_app s acc = String.rev_app s "" +:+ acc.
Proof.
  revert acc. induction s as [|x s IH]; intros acc; [done|]. simpl.
  rewrite (IH (String x acc)), (IH (String x "")).
  by rewrite append_assoc.
Qed.

Lemma prefix_append (a b : string) : String.prefix a (a +:+ b) = true.
Proof.
  induction a as [|x a IH]; [by destruct b|].
  rewrite append_cons. simpl. by destruct (Ascii.ascii_dec x x).
Qed.

Lemma ends_with_append (t suffix : string) :
  ends_with suffix (t +:+ suffix) = true.
Proof.
  unfold ends_with, String.rev.
  rewrite rev_app_app, (rev_app_acc suffix (String.rev_app t "")).
  apply prefix_append.
Qed.

Lemma annotated_dunder_lines d :
  Forall (λ l, ends_with "# type: ignore" l = true) (dunder_lines d).
Proof.
  unfold dunder_lines, ignore.
  change "  # type: ignore" with ("  " +:+ "# type: ignore").
  case_decide; repeat constructor;
    rewrite <-!append_assoc; apply ends_with_append.
Qed.

Lemma annotated_ctype_lines c :
  Forall (λ l, ends_with "# type: ignore" l = true) (ctype_lines c).
Proof.
  unfold ctype_lines, ignore.
  change "  # type: ignore" with ("  " +:+ "# type: ignore").
  change "_p # type: ignore" with ("_p " +:+ "# type: ignore").
  repeat constructor; rewrite <-!append_assoc; apply ends_with_append.
Qed.

(** X6 — Every line of the output is the header, the empty line, the
    bare name of a builtin, or a line that ends in the comment
    [# type: ignore]: the special methods, the foreign-type aliases and
    [__value] are all annotated. *)
Theorem lines_are_annotated bs ds cs l :
  Forall (λ b, one_line b = true) bs → Forall (λ d, one_line d = true) ds →
  Forall (λ c, one_line c = true) cs →
  l ∈ lines (main bs ds cs) →
  l = header ∨ l = "" ∨ l ∈ bs ∨ ends_with "# type: ignore" l = true.
Proof.
  intros Hb Hd Hc. rewrite lines_of_main by done.
  rewrite !elem_of_app, !elem_of_cons, elem_of_nil, !list_elem_of_bind.
  intros [[->|[->|[]]]|[Hl|[(d & Hl & _)|[(c & Hl & _)|[->|[]]]]]]; auto.
  - do 3 right. pose proof (annotated_dunder_lines d) as Hall.
    rewrite Forall_forall in Hall. by apply Hall.
  - do 3 right. pose proof (annotated_ctype_lines c) as Hall.
    rewrite Forall_forall in Hall. by apply Hall.
Qed.

Lemma lines_are_annotated_witness :
  "c_void_p # type: ignore" = header ∨ "c_void_p # type: ignore" = ""
  ∨ "c_void_p # type: ignore" ∈ BUILTINS
  ∨ ends_with "# type: ignore" "c_void_p # type: ignore" = true.
Proof.
  apply (lines_are_annotated BUILTINS DUNDERS CTYPES); by_compute.
Defined.

(** X7 — The script composes: whatever the tables hold, its output is
    the header and the empty line, then what each of the three loops
    prints when run on its own, in the order builtins, special methods,
    foreign types, then the line of [__value]; and so for the identifiers
    listed. *)
Theorem output_by_loop bs ds cs :
  lines (main bs ds cs) =
    [header; ""] ++ lines (for_each bs emit_builtin "")
    ++ lines (for_each ds emit_dunder "") ++ lines (for_each cs emit_ctype "")
    ++ [value_line]
  ∧ names (main bs ds cs) =
    builtin_names bs ++ dunder_names ds ++ ctype_names cs ++ ["__value"].
Proof.
  split; [|apply names_main].
  rewrite main_text, !lines_text_app, builtins_text, dunders_text, ctypes_text.
  by rewrite (lines_text [header; ""]), (lines_text [value_line])
    by by_compute.
Qed.

(** X8 — Reading the listing back gives the identifiers without their
    comments: for tables of plain entries (no blank, hash or line feed)
    the identifiers listed are the non-empty builtin names, for each
    special method [__d__] and (but for [eq]) [__rd__], for each foreign
    type [c_t] and [c_t_p], and [__value], in this order. *)
Theorem listed_identifiers bs ds cs :
  Forall (λ b, plain b = true) bs → Forall (λ d, plain d = true) ds →
  Forall (λ c, plain c = true) cs →
  names (main bs ds cs) =
  filter (λ b, b ≠ "") bs ++ (ds ≫= dunder_idents) ++ (cs ≫= ctype_idents)
  ++ ["__value"].
Proof.
  intros Hb Hd Hc.
  by rewrite names_main, builtin_names_plain, dunder_names_plain,
    ctype_names_plain.
Qed.

Lemma listed_identifiers_witness :
  names (main [""; "id"] ["eq"; "ne"] ["int"]) =
  filter (λ b, b ≠ "") [""; "id"] ++ (["eq"; "ne"] ≫= dunder_idents)
  ++ (["int"] ≫= ctype_idents) ++ ["__value"].
Proof.
  apply (listed_identifiers [""; "id"] ["eq"; "ne"] ["int"]); by_compute.
Defined.

End layout.

(** ** When the listing repeats a line *)

Section duplicates.

Lemma NoDup_bind_disjoint {A B} (f : A → list B) (l : list A) :
  NoDup l → (∀ x, x ∈ l → NoDup (f x)) →
  (∀ x y z, x ∈ l → y ∈ l → z ∈ f x → z ∈ f y → x = y) →
  NoDup (l ≫= f).
Proof.
  induction l as [|a l IH]; intros Hl Hf Hinj; [constructor|].
  apply NoDup_cons in Hl as [Ha Hl]. rewrite bind_cons. apply NoDup_app.
  split; [apply Hf; by left|]. split.
  - intros z Hz (y & Hzy & Hy)%list_elem_of_bind.
    assert (a = y) as ->.
    { apply (Hinj a y z); [by left|by right|done|done]. }
    done.
  - apply IH; [done|..].
    + intros x Hx. apply Hf. by right.
    + intros x y z Hx Hy. apply Hinj; by right.
Qed.

Lemma NoDup_bind_apart {A B} (f : A → list B) (l : list A) x y z :
  NoDup (l ≫= f) → x ∈ l → y ∈ l → x ≠ y → z ∈ f x → z ∈ f y → False.
Proof.
  induction l as [|a l IH]; intros Hnd Hx Hy Hne Hzx Hzy.
  { by apply elem_of_nil in Hx. }
  rewrite bind_cons in Hnd. apply NoDup_app in Hnd as (_ & Hdisj & Hnd).
  apply elem_of_cons in Hx as [->|Hx]; apply elem_of_cons in Hy as [->|Hy].
  - done.
  - apply (Hdisj z Hzx). apply list_elem_of_bind. by exists y.
  - apply (Hdisj z Hzy). apply list_elem_of_bind. by exists x.
  - by apply IH.
Qed.

(** The two lines of a special method, and how lines of two entries can
    coincide. *)
Lemma dunder_line_inj d d' :
  "__" +:+ d +:+ "__" +:+ ignore = "__" +:+ d' +:+ "__" +:+ ignore → d = d'.
Proof. intros H%(inj (String.app "__")). by apply append_inv_tail in H. Qed.

Lemma reflected_line_inj d d' :
  "__r" +:+ d +:+ "__" +:+ ignore = "__r" +:+ d' +:+ "__" +:+ ignore → d = d'.
Proof. intros H%(inj (String.app "__r")). by apply append_inv_tail in H. Qed.

Lemma dunder_line_reflected d d' :
  "__" +:+ d +:+ "__" +:+ ignore = "__r" +:+ d' +:+ "__" +:+ ignore ↔
  d = "r" +:+ d'.
Proof.
  change ("__r" +:+ d' +:+ "__" +:+ ignore)
    with ("__" +:+ ("r" +:+ d') +:+ "__" +:+ ignore).
  split; [apply dunder_line_inj|by intros ->].
Qed.

Lemma not_own_reflection d : d ≠ "r" +:+ d.
Proof.
  intros H%(f_equal String.length). rewrite append_length in H.
  simpl in H. lia.
Qed.

Lemma elem_of_dunder_lines l d :
  l ∈ dunder_lines d ↔
  l = "__" +:+ d +:+ "__" +:+ ignore
  ∨ (d ≠ "eq" ∧ l = "__r" +:+ d +:+ "__" +:+ ignore).
Proof.
  unfold dunder_lines. rewrite elem_of_cons. case_decide.
  - rewrite list_elem_of_singleton. split; [|by intros [?|[_ ?]]; auto].
    intros [?|?]; auto.
  - rewrite elem_of_nil. split; [by intros [?|[]]; auto|].
    intros [?|[? _]]; [by left|done].
Qed.

Lemma elem_of_ctype_lines l c :
  l ∈ ctype_lines c ↔
  l = "c_" +:+ c +:+ ignore ∨ l = "c_" +:+ c +:+ "_p # type: ignore".
Proof.
  unfold ctype_lines. by rewrite elem_of_cons, list_elem_of_singleton.
Qed.

(** A plain string ends where the first blank is. *)
Lemma plain_blank_split (a a' x y : string) :
  plain a = true → plain a' = true →
  a +:+ String " " x = a' +:+ String " " y → a = a' ∧ x = y.
Proof.
  revert a'. induction a as [|k a IH]; intros [|k' a'] Ha Ha' Heq.
  - by injection Heq as ->.
  - rewrite append_cons in Heq. injection Heq as <- _. done.
  - rewrite append_cons in Heq. injection Heq as -> _. done.
  - rewrite !append_cons in Heq. injection Heq as -> Heq.
    simpl in Ha, Ha'. apply andb_true_iff in Ha as [_ Ha].
    apply andb_true_iff in Ha' as [_ Ha'].
    destruct (IH a' Ha Ha' Heq) as [-> ->]. done.
Qed.

Lemma plain_before_blank (a x : string) : plain (a +:+ String " " x) = false.
Proof. rewrite plain_app. simpl. by rewrite andb_false_r. Qed.

Lemma ctype_lines_apart c c' :
  plain c = true → plain c' = true →
  "c_" +:+ c +:+ ignore ≠ "c_" +:+ c' +:+ "_p # type: ignore".
Proof.
  intros Hc Hc' H%(inj (String.app "c_")).
  change (c' +:+ "_p # type: ignore")
    with (c' +:+ "_p" +:+ String " " "# type: ignore") in H.
  rewrite <-append_assoc in H.
  apply plain_blank_split in H as [_ ?]; [done|done|].
  by rewrite plain_app, Hc'.
Qed.

Lemma ctype_line_inj c c' :
  "c_" +:+ c +:+ ignore = "c_" +:+ c' +:+ ignore → c = c'.
Proof. intros H%(inj (String.app "c_")). by apply append_inv_tail in H. Qed.

Lemma pointer_line_inj c c' :
  "c_" +:+ c +:+ "_p # type: ignore" = "c_" +:+ c' +:+ "_p # type: ignore" →
  c = c'.
Proof. intros H%(inj (String.app "c_")). by apply append_inv_tail in H. Qed.

(** What tells the lines of the four parts apart: the first character,
    and whether there is a blank. *)
Lemma dunder_lines_shape l d :
  l ∈ dunder_lines d →
  String.get 0 l = Some "_"%char ∧ plain l = false ∧ l ≠ value_line.
Proof.
  intros [->|[_ ->]]%elem_of_dunder_lines.
  - split; [done|]. split.
    + change ("__" +:+ d +:+ "__" +:+ ignore)
        with ("__" +:+ d +:+ "__" +:+ String " " " # type: ignore").
      rewrite <-!append_assoc. apply plain_before_blank.
    + unfold value_line. intros H. rewrite <-!append_assoc in H.
      apply append_inv_tail, (f_equal (ends_with "__")) in H.
      by rewrite ends_with_underscores in H.
  - split; [done|]. split; [|done].
    change ("__r" +:+ d +:+ "__" +:+ ignore)
      with ("__r" +:+ d +:+ "__" +:+ String " " " # type: ignore").
    rewrite <-!append_assoc. apply plain_before_blank.
Qed.

Lemma ctype_lines_shape l c :
  l ∈ ctype_lines c → String.get 0 l = Some "c"%char ∧ plain l = false.
Proof.
  intros [->| ->]%elem_of_ctype_lines; (split; [done|]).
  - change ("c_" +:+ c +:+ ignore)
      with ("c_" +:+ c +:+ String " " " # type: ignore").
    rewrite <-!append_assoc. apply plain_before_blank.
  - change ("c_" +:+ c +:+ "_p # type: ignore")
      with ("c_" +:+ c +:+ "_p" +:+ String " " "# type: ignore").
    rewrite <-!append_assoc. apply plain_before_blank.
Qed.

Lemma NoDup_dunder_lines ds :
  NoDup ds →
  (∀ d d', d ∈ ds → d' ∈ ds → d' ≠ "eq" → d ≠ "r" +:+ d') →
  NoDup (ds ≫= dunder_lines).
Proof.
  intros Hds Hrefl. apply NoDup_bind_disjoint; [done|..].
  - intros d _. unfold dunder_lines. case_decide.
    + apply NoDup_cons. split; [|apply NoDup_singleton].
      intros Hx%list_elem_of_singleton%dunder_line_reflected.
      by apply not_own_reflection in Hx.
    + apply NoDup_singleton.
  - intros d d' l Hd Hd'.
    intros [->|[Hne ->]]%elem_of_dunder_lines
           [Heq|[Hne' Heq]]%elem_of_dunder_lines.
    + by apply dunder_line_inj.
    + apply dunder_line_reflected in Heq. by destruct (Hrefl d d').
    + symmetry in Heq. apply dunder_line_reflected in Heq.
      by destruct (Hrefl d' d).
    + by apply reflected_line_inj.
Qed.

Lemma NoDup_ctype_lines cs :
  NoDup cs → Forall (λ c, plain c = true) cs → NoDup (cs ≫= ctype_lines).
Proof.
  intros Hcs Hplain. rewrite Forall_forall in Hplain.
  apply NoDup_bind_disjoint; [done|..].
  - intros c Hc. unfold ctype_lines.
    apply NoDup_cons. split; [|apply NoDup_singleton].
    intros H%list_elem_of_singleton. revert H. apply ctype_lines_apart; auto.
  - intros c c' l Hc Hc'.
    intros [->| ->]%elem_of_ctype_lines [Heq|Heq]%elem_of_ctype_lines.
    + by apply ctype_line_inj.
    + by apply ctype_lines_apart in Heq; auto.
    + symmetry in Heq. by apply ctype_lines_apart in Heq; auto.
    + by apply pointer_line_inj.
Qed.

(** X9 — For tables of plain, pairwise distinct entries with no empty
    builtin name, the output repeats a line exactly when DUNDERS holds,
    besides an entry [d'] other than [eq], the entry [r d']: the
    reflected name of the one is then the name of the other. *)
Theorem duplicate_lines bs ds cs :
  Forall (λ b, plain b = true) bs → Forall (λ d, plain d = true) ds →
  Forall (λ c, plain c = true) cs →
  NoDup bs → NoDup ds → NoDup cs → "" ∉ bs →
  NoDup (lines (main bs ds cs)) ↔
  ∀ d d', d ∈ ds → d' ∈ ds → d' ≠ "eq" → d ≠ "r" +:+ d'.
Proof.
  intros Hb Hd Hc Nb Nd Nc Hempty.
  rewrite lines_of_main
    by (eapply Forall_impl; [done|apply plain_one_line]).
  split.
  - intros Hnd d d' Hin Hin' Hne ->.
    apply NoDup_app in Hnd as (_ & _ & Hnd).
    apply NoDup_app in Hnd as (_ & _ & Hnd).
    apply NoDup_app in Hnd as (Hnd & _ & _).
    apply (NoDup_bind_apart dunder_lines ds ("r" +:+ d') d'
             ("__r" +:+ d' +:+ "__" +:+ ignore) Hnd); try done.
    + intros H. symmetry in H. by apply not_own_reflection in H.
    + apply elem_of_dunder_lines. left. symmetry.
      by apply dunder_line_reflected.
    + apply elem_of_dunder_lines. by right.
  - intros Hrefl. rewrite Forall_forall in Hb.
    assert (∀ l, l ∈ ds ≫= dunder_lines →
              String.get 0 l = Some "_"%char ∧ plain l = false
              ∧ l ≠ value_line) as HD.
    { intros l (d & Hl & _)%list_elem_of_bind. by eapply dunder_lines_shape. }
    assert (∀ l, l ∈ cs ≫= ctype_lines →
              String.get 0 l = Some "c"%char ∧ plain l = false) as HC.
    { intros l (c & Hl & _)%list_elem_of_bind. by eapply ctype_lines_shape. }
    apply NoDup_app. split; [by_compute|]. split.
    { intros l Hl. rewrite !elem_of_app, list_elem_of_singleton.
      apply elem_of_cons in Hl as [->|Hl%list_elem_of_singleton].
      - intros [H|[H|[H|H]]]; [|by destruct (HD _ H)|by destruct (HC _ H)
                                |done].
        by apply Hb in H.
      - subst l. intros [H|[H|[H|H]]]; [done|by destruct (HD _ H)
                                         |by destruct (HC _ H)|done]. }
    apply NoDup_app. split; [done|]. split.
    { intros l Hl. rewrite !elem_of_app, list_elem_of_singleton.
      apply Hb in Hl. intros [H|[H|H]].
      - destruct (HD _ H) as (_ & Hp & _). congruence.
      - destruct (HC _ H) as (_ & Hp). congruence.
      - by subst l. }
    apply NoDup_app. split; [by apply NoDup_dunder_lines|]. split.
    { intros l Hl. rewrite elem_of_app, list_elem_of_singleton.
      destruct (HD _ Hl) as (Hget & _ & Hv). intros [H|H]; [|done].
      destruct (HC _ H) as (Hget' & _). congruence. }
    apply NoDup_app. split; [by apply NoDup_ctype_lines|].
    split; [|apply NoDup_singleton].
    intros l Hl ->%list_elem_of_singleton. by destruct (HC _ Hl).
Qed.

Lemma duplicate_lines_witness :
  NoDup (lines (main BUILTINS DUNDERS CTYPES)) ↔
  ∀ d d', d ∈ DUNDERS → d' ∈ DUNDERS → d' ≠ "eq" → d ≠ "r" +:+ d'.
Proof. apply (duplicate_lines BUILTINS DUNDERS CTYPES); by_compute. Defined.

End duplicates.

(** * The test of the import scenario *)

Section import_test.

Context `{Parser} (fs : gmap string string).

Implicit Types (p : CompiledProgram) (m : Module) (decl : ImportDeclaration).

Lemma pop_singleton (d : ImportDeclaration) : pop {[ d ]} = Some (d, ∅).
Proof.
  unfold pop. rewrite elements_singleton. f_equal. f_equal.
  apply set_eq. intros x. rewrite elem_of_difference, elem_of_singleton.
  split; [by intros [? ?]|by intros ?%elem_of_empty].
Qed.

(** The program after [compile] and the [pop] of the only import. *)
Lemma test_reaches_import roots ext ast0 d fuel :
  parse "import builtins" = Some ast0 →
  top_level_imports ast0 = {[ d ]} → str d = "builtins" →
  ∃ code main,
    modules code !! "__main__" = Some main ∧ imports main = ∅
    ∧ modules code !! "builtins" = None
    ∧ searchRoots code = roots ∧ fileExtension code = ext
    ∧ test_parse_import_module_path fs roots ext fuel =
      match importModule fs fuel d code with
      | Return module_object code =>
          if bool_decide (name module_object = "builtins")
          then
            match path module_object with
            | Some file =>
                if exists_file fs file
                then match builder module_object with
                     | Some _ => Passed code
                     | None => AssertionFailed 18
                     end
                else AssertionFailed 17
            | None => AssertionFailed 17
            end
          else AssertionFailed 16
      | Raise e _ => Uncaught e
      | OutOfFuel => Unfinished
      end.
Proof.
  intros Hparse Himports Hstr.
  unfold test_parse_import_module_path, resolveEntry. rewrite Hparse.
  cbn [mbind option_bind modules]. rewrite lookup_singleton_eq.
  cbn [imports]. rewrite Himports, set_map_singleton_L, Hstr.
  rewrite bool_decide_eq_true_2 by done. rewrite pop_singleton.
  eexists _, _. split; [|split; [|split; [|split; [|split; [|done]]]]].
  - cbn [set_modules modules]. rewrite lookup_alter_eq, lookup_singleton_eq.
    done.
  - done.
  - cbn [set_modules modules].
    by rewrite lookup_alter_ne, lookup_singleton_ne.
  - done.
  - done.
Qed.



End import_test.


